(** * helmscan: the chart comparison engine and its report renderers

    A shallow embedding of [internal/helmscan/helmscan.go]:
    [CompareHelmCharts], [compareImageVulnerabilities], the severity
    counters and the Markdown / JSON image and CVE tables, followed by the
    properties the specification states about them.

    Conventions of the embedding.
    - A Go [map[string]T] is a [gmap string T].  A nil map reads like the
      empty map (lookups miss, [range] runs zero times), so the nilable
      field [ContainerImage.Vulnerabilities] is an [option] that is read
      through [vulns].
    - A pointer [*ContainerImage] is an [option ContainerImage]; [None] is
      the nil pointer.  Dereferencing nil panics: a function that may do so
      returns [option], and [None] is the panic.
    - [range] over a Go map visits the entries in an order the runtime
      picks.  The embedding takes that order from a parameter of type
      [MapOrder]; the only thing known about it is [valid_order]. *)

From stdpp Require Import base option list strings gmap sorting pretty.
From Stdlib Require Import ZArith Lia Ascii.

Local Open Scope string_scope.

(** ** Data model *)

(** Modelled from the spec: [imageScan.Vulnerability] (package [imageScan]
    is not part of the sources at hand).  The code reads its [ID] and
    [Severity] fields; the remaining fields are opaque metadata. *)
Record Vulnerability := mkVulnerability {
  ID : string;
  Severity : string;
  Metadata : string
}.

(** Modelled from the spec: method [GetSeverity] of the interface
    [reports.Vulnerability], which [imageScan.Vulnerability] implements. *)
Definition GetSeverity (v : Vulnerability) : string := Severity v.

#[global] Instance Vulnerability_eq_dec : EqDecision Vulnerability.
Proof. solve_decision. Defined.

(** [ContainerImage]; the field [ScanResult] is never read by the functions
    embedded here and is left out. *)
Record ContainerImage := mkContainerImage {
  Repository : string;
  Tag : string;
  ImageName : string;
  Vulnerabilities : option (gmap string Vulnerability)
}.

#[global] Instance ContainerImage_eq_dec : EqDecision ContainerImage.
Proof. solve_decision. Defined.

Record HelmChart := mkHelmChart {
  Name : string;
  Version : string;
  HelmRepo : string;
  ContainsImages : list (option ContainerImage)
}.

Abbreviation ImageMap := (gmap string (list (option ContainerImage))).
Abbreviation CVEMap := (gmap string (gmap string Vulnerability)).

Record HelmComparison := mkHelmComparison {
  Before : HelmChart;
  After : HelmChart;
  AddedImages : ImageMap;
  RemovedImages : ImageMap;
  ChangedImages : ImageMap;
  UnChangedImages : ImageMap;
  RemovedCVEs : CVEMap;
  AddedCVEs : CVEMap;
  UnchangedCVEs : CVEMap
}.

(** Reading a possibly nil vulnerability map. *)
Definition vulns (img : ContainerImage) : gmap string Vulnerability :=
  default ∅ (Vulnerabilities img).

(** ** Map iteration order *)

Definition MapOrder : Type := ∀ A : Type, gmap string A → list (string * A).

(** Each entry of the map is visited exactly once. *)
Definition valid_order (iter : MapOrder) : Prop :=
  ∀ (A : Type) (m : gmap string A), iter A m ≡ₚ map_to_list m.

Definition canonical_order : MapOrder := λ A m, map_to_list m.
Definition reversed_order : MapOrder := λ A m, reverse (map_to_list m).

(** ** Field updates of [HelmComparison] *)

Definition set_AddedImages (f : ImageMap → ImageMap) (c : HelmComparison) :=
  mkHelmComparison (Before c) (After c) (f (AddedImages c)) (RemovedImages c)
    (ChangedImages c) (UnChangedImages c) (RemovedCVEs c) (AddedCVEs c)
    (UnchangedCVEs c).
Definition set_RemovedImages (f : ImageMap → ImageMap) (c : HelmComparison) :=
  mkHelmComparison (Before c) (After c) (AddedImages c) (f (RemovedImages c))
    (ChangedImages c) (UnChangedImages c) (RemovedCVEs c) (AddedCVEs c)
    (UnchangedCVEs c).
Definition set_ChangedImages (f : ImageMap → ImageMap) (c : HelmComparison) :=
  mkHelmComparison (Before c) (After c) (AddedImages c) (RemovedImages c)
    (f (ChangedImages c)) (UnChangedImages c) (RemovedCVEs c) (AddedCVEs c)
    (UnchangedCVEs c).
Definition set_UnChangedImages (f : ImageMap → ImageMap) (c : HelmComparison) :=
  mkHelmComparison (Before c) (After c) (AddedImages c) (RemovedImages c)
    (ChangedImages c) (f (UnChangedImages c)) (RemovedCVEs c) (AddedCVEs c)
    (UnchangedCVEs c).
Definition set_RemovedCVEs (f : CVEMap → CVEMap) (c : HelmComparison) :=
  mkHelmComparison (Before c) (After c) (AddedImages c) (RemovedImages c)
    (ChangedImages c) (UnChangedImages c) (f (RemovedCVEs c)) (AddedCVEs c)
    (UnchangedCVEs c).
Definition set_AddedCVEs (f : CVEMap → CVEMap) (c : HelmComparison) :=
  mkHelmComparison (Before c) (After c) (AddedImages c) (RemovedImages c)
    (ChangedImages c) (UnChangedImages c) (RemovedCVEs c) (f (AddedCVEs c))
    (UnchangedCVEs c).
Definition set_UnchangedCVEs (f : CVEMap → CVEMap) (c : HelmComparison) :=
  mkHelmComparison (Before c) (After c) (AddedImages c) (RemovedImages c)
    (ChangedImages c) (UnChangedImages c) (RemovedCVEs c) (AddedCVEs c)
    (f (UnchangedCVEs c)).

(** ** The diff engine *)

(** [cves[id][name] = vuln], creating the inner map when [cves[id]] is
    missing (helmscan.go 193-196, 202-207, 216-221, 232-240, 246-249). *)
Definition recordCVE (id name : string) (vuln : Vulnerability)
    (cves : CVEMap) : CVEMap :=
  <[id := <[name := vuln]> (default ∅ (cves !! id))]> cves.

(** [cves[id][name]], for reading a result. *)
Definition lookupCVE (cves : CVEMap) (id name : string) : option Vulnerability :=
  cves !! id ≫= λ inner, inner !! name.

(** The loops of helmscan.go 177-183: [images[img.ImageName] = img] for
    every element of the slice, a nil element panics. *)
Fixpoint indexImages (imgs : list (option ContainerImage))
    (images : gmap string ContainerImage) : option (gmap string ContainerImage) :=
  match imgs with
  | [] => Some images
  | None :: _ => None
  | Some img :: rest => indexImages rest (<[ImageName img := img]> images)
  end.

Section DiffEngine.
Variable iter : MapOrder.

(** helmscan.go 229-252 *)
Definition compareImageVulnerabilities (before after : ContainerImage)
    (comparison : HelmComparison) : HelmComparison :=
  let comparison1 :=
    foldl (λ c '(id, vuln),
             match vulns after !! id with
             | None => set_RemovedCVEs (recordCVE id (ImageName before) vuln) c
             | Some _ => set_UnchangedCVEs (recordCVE id (ImageName before) vuln) c
             end)
          comparison (iter _ (vulns before)) in
  foldl (λ c '(id, vuln),
           match vulns before !! id with
           | None => set_AddedCVEs (recordCVE id (ImageName after) vuln) c
           | Some _ => c
           end)
        comparison1 (iter _ (vulns after)).

(** Body of the loop at helmscan.go 185-210. *)
Definition compareBeforeImage (afterImages : gmap string ContainerImage)
    (comparison : HelmComparison) (entry : string * ContainerImage)
    : HelmComparison :=
  let '(name, beforeImg) := entry in
  match afterImages !! name with
  | Some afterImg =>
      if decide (Tag beforeImg ≠ Tag afterImg) then
        compareImageVulnerabilities beforeImg afterImg
          (set_ChangedImages <[name := [Some beforeImg; Some afterImg]]> comparison)
      else
        foldl (λ c '(id, vuln), set_UnchangedCVEs (recordCVE id name vuln) c)
              (set_UnChangedImages <[name := [Some beforeImg; Some afterImg]]> comparison)
              (iter _ (vulns beforeImg))
  | None =>
      foldl (λ c '(id, vuln), set_RemovedCVEs (recordCVE id name vuln) c)
            (set_RemovedImages <[name := [Some beforeImg]]> comparison)
            (iter _ (vulns beforeImg))
  end.

(** Body of the loop at helmscan.go 212-224. *)
Definition compareAfterImage (beforeImages : gmap string ContainerImage)
    (comparison : HelmComparison) (entry : string * ContainerImage)
    : HelmComparison :=
  let '(name, afterImg) := entry in
  match beforeImages !! name with
  | None =>
      foldl (λ c '(id, vuln), set_AddedCVEs (recordCVE id name vuln) c)
            (set_AddedImages <[name := [Some afterImg]]> comparison)
            (iter _ (vulns afterImg))
  | Some _ => comparison
  end.

(** helmscan.go 161-227 *)
Definition CompareHelmCharts (before after : HelmChart) : option HelmComparison :=
  beforeImages ← indexImages (ContainsImages before) ∅;
  afterImages ← indexImages (ContainsImages after) ∅;
  let comparison := mkHelmComparison before after ∅ ∅ ∅ ∅ ∅ ∅ ∅ in
  let comparison1 :=
    foldl (compareBeforeImage afterImages) comparison (iter _ beforeImages) in
  Some (foldl (compareAfterImage beforeImages) comparison1 (iter _ afterImages)).
End DiffEngine.

(** Scenario 1 of the specification. *)
Definition vCVE1 := mkVulnerability "CVE-1" "high" "".
Definition vCVE2 := mkVulnerability "CVE-2" "critical" "".
Definition app_v1 :=
  mkContainerImage "docker.io/acme" "v1" "app" (Some {["CVE-1" := vCVE1]}).
Definition app_v2 :=
  mkContainerImage "docker.io/acme" "v2" "app"
    (Some (<["CVE-2" := vCVE2]> {["CVE-1" := vCVE1]})).
Definition chart1 := mkHelmChart "demo" "1.0.0" "acme" [Some app_v1].
Definition chart2 := mkHelmChart "demo" "2.0.0" "acme" [Some app_v2].

(** ** The report renderers *)

(** Modelled from the spec: the structs [SeverityCount], [ImageChange] and
    [SortableCVE] of package [reports], which is not part of the sources at
    hand.  Their fields are those the composite literals of helmscan.go
    493-497, 543-548 and 559-598 set; a field a literal leaves out holds the
    empty string. *)
Module SeverityCount.
Record t := mk {
  Severity : string;
  Current : Z;
  Previous : Z;
  Difference : Z
}.
End SeverityCount.

Module ImageChange.
Record t := mk {
  Name : string;
  Status : string;
  BeforeRepo : string;
  AfterRepo : string;
  BeforeTag : string;
  AfterTag : string
}.
End ImageChange.

Module SortableCVE.
Record t := mk {
  ID : string;
  Severity : string;
  Images : list string
}.
End SortableCVE.

#[global] Instance SeverityCount_eq_dec : EqDecision SeverityCount.t.
Proof. solve_decision. Defined.
#[global] Instance ImageChange_eq_dec : EqDecision ImageChange.t.
Proof. solve_decision. Defined.
#[global] Instance SortableCVE_eq_dec : EqDecision SortableCVE.t.
Proof. solve_decision. Defined.

(** The line feed character. *)
Definition NL : string := String "010"%char "".

(** [fmt.Sprintf("%d", z)] and [fmt.Sprintf("%+d", z)].  The counters are
    Go [int]s; they count entries of maps held in memory and stay far below
    2^63, so they are integers here. *)
Definition fmt_d (z : Z) : string := pretty z.
Definition fmt_plus_d (z : Z) : string :=
  if decide (z < 0)%Z then pretty z else "+" +:+ pretty z.

(** [images[i].Field]: the index may be out of range and the pointer nil,
    either panics. *)
Definition deref (images : list (option ContainerImage)) (i : nat)
    : option ContainerImage :=
  mjoin (images !! i).

(** [severities] of helmscan.go 386 and 523. *)
Definition severities : list string := ["critical"; "high"; "medium"; "low"].

(** [chart.HelmRepo/chart.Name@chart.Version] *)
Definition chartRef (chart : HelmChart) : string :=
  HelmRepo chart +:+ "/" +:+ Name chart +:+ "@" +:+ Version chart.

(** [strings.Title] on ASCII text: a letter that follows a separator (any
    ASCII character that is no letter, digit or underscore), or starts the
    string, is upper-cased.  Bytes above 127 are left alone and count as
    letters. *)
Definition isLower (c : ascii) : bool :=
  (97 <=? nat_of_ascii c)%nat && (nat_of_ascii c <=? 122)%nat.
Definition isAlnum (c : ascii) : bool :=
  let n := nat_of_ascii c in
  ((48 <=? n) && (n <=? 57) || (65 <=? n) && (n <=? 90) ||
   (97 <=? n) && (n <=? 122) || (n =? 95))%nat.
Definition isSeparator (c : ascii) : bool :=
  (nat_of_ascii c <=? 127)%nat && negb (isAlnum c).
Definition toTitle (c : ascii) : ascii :=
  if isLower c then ascii_of_nat (nat_of_ascii c - 32) else c.
Fixpoint Title_from (prev : ascii) (s : string) : string :=
  match s with
  | EmptyString => EmptyString
  | String c rest =>
      String (if isSeparator prev then toTitle c else c) (Title_from c rest)
  end.
Definition Title (s : string) : string := Title_from " "%char s.

(** Modelled from the spec: the order of [reports.SortableCVEList] (its
    [Less] method is not part of the sources at hand): severity rank first,
    critical before high before medium before low before anything else,
    then the CVE ID in ascending lexicographic order. *)
Definition severityRank (severity : string) : nat :=
  if decide (severity = "critical") then 0
  else if decide (severity = "high") then 1
  else if decide (severity = "medium") then 2
  else if decide (severity = "low") then 3
  else 4.

Definition Less (x y : SortableCVE.t) : Prop :=
  severityRank (SortableCVE.Severity x) < severityRank (SortableCVE.Severity y) ∨
  (severityRank (SortableCVE.Severity x) = severityRank (SortableCVE.Severity y) ∧
   String.le (SortableCVE.ID x) (SortableCVE.ID y) ∧
   SortableCVE.ID x ≠ SortableCVE.ID y).

(** [x] may stand before [y] in a sorted list. *)
Definition notAfter (x y : SortableCVE.t) : Prop := ¬ Less y x.

#[global] Instance Less_dec : RelDecision Less.
Proof. intros x y. unfold Less. apply _. Defined.
#[global] Instance notAfter_dec : RelDecision notAfter.
Proof. intros x y. unfold notAfter. apply _. Defined.

(** [sort.Sort]: the list is rearranged so that no element is [Less] than
    one before it.  The rows sorted here have pairwise distinct IDs, which
    leaves one such arrangement. *)
Definition sortCVEs (cves : list SortableCVE.t) : list SortableCVE.t :=
  merge_sort notAfter cves.

Section Renderers.
Variable iter : MapOrder.

(** [counts[vuln.Severity]++] for every vulnerability of every image
    (helmscan.go 390-399 and 529-538); a nil image pointer panics. *)
Fixpoint countSeverities (imgs : list (option ContainerImage))
    (counts : gmap string Z) : option (gmap string Z) :=
  match imgs with
  | [] => Some counts
  | None :: _ => None
  | Some img :: rest =>
      countSeverities rest
        (foldl (λ counts '(_, vuln),
                  <[Severity vuln := (default 0 (counts !! Severity vuln) + 1)%Z]> counts)
               counts (iter _ (vulns img)))
  end.

(** helmscan.go 522-552 *)
Definition generateJSONSeverityCounts (comparison : HelmComparison)
    : option (list SeverityCount.t) :=
  prevCounts ← countSeverities (ContainsImages (Before comparison)) ∅;
  currentCounts ← countSeverities (ContainsImages (After comparison)) ∅;
  Some ((λ severity,
           let current := default 0%Z (currentCounts !! severity) in
           let previous := default 0%Z (prevCounts !! severity) in
           SeverityCount.mk severity current previous (current - previous)%Z)
        <$> severities).

(** The rows of the severity table, helmscan.go 386-408. *)
Definition markdownSeverityRows (comparison : HelmComparison)
    : option (list string) :=
  prevCounts ← countSeverities (ContainsImages (Before comparison)) ∅;
  currentCounts ← countSeverities (ContainsImages (After comparison)) ∅;
  Some ((λ severity,
           let count := default 0%Z (currentCounts !! severity) in
           let prevCount := default 0%Z (prevCounts !! severity) in
           let difference := (count - prevCount)%Z in
           let differenceStr := fmt_plus_d difference in
           "| " +:+ severity +:+ " | " +:+ fmt_d count +:+ " | " +:+
           fmt_d prevCount +:+ " | " +:+ differenceStr +:+ " |" +:+ NL)
        <$> severities).

(** [imageRows], helmscan.go 416-436. *)
Definition markdownImageRows (comparison : HelmComparison)
    : option (list string) :=
  added ← mapM (λ '(name, images),
      img0 ← deref images 0;
      Some ("| " +:+ name +:+ " | Added | - | " +:+ Repository img0 +:+
            " | - | " +:+ Tag img0 +:+ " |"))
    (iter _ (AddedImages comparison));
  removed ← mapM (λ '(name, images),
      img0 ← deref images 0;
      Some ("| " +:+ name +:+ " | Removed | " +:+ Repository img0 +:+
            " | - | " +:+ Tag img0 +:+ " | - |"))
    (iter _ (RemovedImages comparison));
  changed ← mapM (λ '(name, images),
      img0 ← deref images 0; img1 ← deref images 1;
      Some ("| " +:+ name +:+ " | Changed | " +:+ Repository img0 +:+ " | " +:+
            Repository img1 +:+ " | " +:+ Tag img0 +:+ " | " +:+ Tag img1 +:+ " |"))
    (iter _ (ChangedImages comparison));
  unchanged ← mapM (λ '(name, images),
      img0 ← deref images 0; img1 ← deref images 1;
      Some ("| " +:+ name +:+ " | Unchanged | " +:+ Repository img0 +:+ " | " +:+
            Repository img1 +:+ " | " +:+ Tag img0 +:+ " | " +:+ Tag img1 +:+ " |"))
    (iter _ (UnChangedImages comparison));
  Some (added ++ removed ++ changed ++ unchanged)%list.

(** helmscan.go 554-602 *)
Definition generateJSONImageChanges (comparison : HelmComparison)
    : option (list ImageChange.t) :=
  added ← mapM (λ '(name, images),
      img0 ← deref images 0;
      Some (ImageChange.mk name "Added" "" (Repository img0) "" (Tag img0)))
    (iter _ (AddedImages comparison));
  removed ← mapM (λ '(name, images),
      img0 ← deref images 0;
      Some (ImageChange.mk name "Removed" (Repository img0) "" (Tag img0) ""))
    (iter _ (RemovedImages comparison));
  changed ← mapM (λ '(name, images),
      img0 ← deref images 0; img1 ← deref images 1;
      Some (ImageChange.mk name "Changed" (Repository img0) (Repository img1)
              (Tag img0) (Tag img1)))
    (iter _ (ChangedImages comparison));
  unchanged ← mapM (λ '(name, images),
      img0 ← deref images 0;
      Some (ImageChange.mk name "Unchanged" (Repository img0) (Repository img0)
              (Tag img0) (Tag img0)))
    (iter _ (UnChangedImages comparison));
  Some (added ++ removed ++ changed ++ unchanged)%list.

(** The loop of helmscan.go 486-498: one row per CVE ID, with the names
    of its images in iteration order and the severity of the entry
    visited last. *)
Definition collectCVE (entry : string * gmap string Vulnerability)
    : SortableCVE.t :=
  let '(cveID, imageVulns) := entry in
  let '(images, severity) :=
    foldl (λ '(images, severity) '(imageName, vuln),
             ((images ++ [imageName])%list, GetSeverity vuln))
          ([], "") (iter _ imageVulns) in
  SortableCVE.mk cveID severity images.

Definition collectCVEs (cves : CVEMap) : list SortableCVE.t :=
  collectCVE <$> iter _ cves.

(** The loop of helmscan.go 506-518. *)
Fixpoint formatCVERows (currentSeverity : string) (cves : list SortableCVE.t)
    : string :=
  match cves with
  | [] => ""
  | cve :: rest =>
      (if decide (SortableCVE.Severity cve ≠ currentSeverity) then
         (if decide (currentSeverity ≠ "") then NL else "") +:+
         "#### " +:+ Title (SortableCVE.Severity cve) +:+ NL +:+
         "| CVE ID | Severity | Affected Images |" +:+ NL +:+
         "|--------|----------|------------------|" +:+ NL
       else "") +:+
      "| " +:+ SortableCVE.ID cve +:+ " | " +:+ SortableCVE.Severity cve +:+
      " | " +:+ String.concat ", " (SortableCVE.Images cve) +:+ " |" +:+ NL +:+
      formatCVERows (SortableCVE.Severity cve) rest
  end.

(** helmscan.go 480-520 *)
Definition sortAndFormatCVEs (cves : CVEMap) : string :=
  if decide (size cves = 0) then "No CVEs found." +:+ NL +:+ NL
  else
    let sortedCVEs := sortCVEs (collectCVEs cves) in
    "| CVE ID | Severity | Affected Images |" +:+ NL +:+
    "|--------|----------|------------------|" +:+ NL +:+
    formatCVERows "" sortedCVEs.

(** helmscan.go 375-455 *)
Definition generateMarkdownReport (comparison : HelmComparison) : option string :=
  severityRows ← markdownSeverityRows comparison;
  imageRows ← markdownImageRows comparison;
  Some ("## Helm Chart Comparison Report " +:+ chartRef (Before comparison) +:+
        " to " +:+ chartRef (After comparison) +:+ NL +:+ NL +:+
        "### CVE by Severity" +:+ NL +:+ NL +:+
        "| Severity | Count | Prev Count | Difference |" +:+ NL +:+
        "|----------|-------|------------|------------|" +:+ NL +:+
        String.concat "" severityRows +:+ NL +:+ NL +:+
        "### Images" +:+ NL +:+ NL +:+
        "| Image Name | Status | Before Repo | After Repo | Before Tag | After Tag |" +:+ NL +:+
        "|------------|--------|-------------|------------|------------|-----------|" +:+ NL +:+
        String.concat NL imageRows +:+ NL +:+ NL +:+
        "### Unchanged CVEs" +:+ NL +:+ NL +:+
        sortAndFormatCVEs (UnchangedCVEs comparison) +:+ NL +:+ NL +:+
        "### Added CVEs" +:+ NL +:+ NL +:+
        sortAndFormatCVEs (AddedCVEs comparison) +:+ NL +:+ NL +:+
        "### Removed CVEs" +:+ NL +:+ NL +:+
        sortAndFormatCVEs (RemovedCVEs comparison) +:+ NL).
End Renderers.

(** The number of vulnerabilities of one severity over all images of a
    chart, as the specification counts them: per image, over its map. *)
Definition severityCount (severity : string) (chart : HelmChart) : Z :=
  foldr (λ p total,
           (Z.of_nat (size (filter (λ e, Severity e.2 = severity)
                              (from_option vulns ∅ p))) + total)%Z)
        0%Z (ContainsImages chart).

(** ** The comparison, name by name

    What the specification says the result holds for one image name, given
    the image indexed under that name on either side ([None]: no image of
    that name). *)

Inductive ImgField := IAdded | IRemoved | IChanged | IUnChanged.
Inductive CVEField := FRemoved | FAdded | FUnchanged.

#[global] Instance ImgField_eq_dec : EqDecision ImgField.
Proof. solve_decision. Defined.
#[global] Instance CVEField_eq_dec : EqDecision CVEField.
Proof. solve_decision. Defined.

Definition getImgs (f : ImgField) (c : HelmComparison) : ImageMap :=
  match f with
  | IAdded => AddedImages c
  | IRemoved => RemovedImages c
  | IChanged => ChangedImages c
  | IUnChanged => UnChangedImages c
  end.

Definition getCVEs (f : CVEField) (c : HelmComparison) : CVEMap :=
  match f with
  | FRemoved => RemovedCVEs c
  | FAdded => AddedCVEs c
  | FUnchanged => UnchangedCVEs c
  end.

Definition expectedImages (f : ImgField) (b a : option ContainerImage)
    : option (list (option ContainerImage)) :=
  match b, a with
  | None, None => None
  | None, Some a => if f is IAdded then Some [Some a] else None
  | Some b, None => if f is IRemoved then Some [Some b] else None
  | Some b, Some a =>
      if decide (Tag b ≠ Tag a)
      then (if f is IChanged then Some [Some b; Some a] else None)
      else (if f is IUnChanged then Some [Some b; Some a] else None)
  end.

Definition expectedCVE (f : CVEField) (b a : option ContainerImage)
    (id : string) : option Vulnerability :=
  match b, a with
  | None, None => None
  | None, Some a => if f is FAdded then vulns a !! id else None
  | Some b, None => if f is FRemoved then vulns b !! id else None
  | Some b, Some a =>
      if decide (Tag b ≠ Tag a) then
        match f with
        | FRemoved => if vulns a !! id is None then vulns b !! id else None
        | FUnchanged => if vulns a !! id is None then None else vulns b !! id
        | FAdded => if vulns b !! id is None then vulns a !! id else None
        end
      else (if f is FUnchanged then vulns b !! id else None)
  end.

(** The nested loops in one shape: for every entry [(id, vuln)] of a
    vulnerability map, record it under [name] in the map [sel id] picks. *)
Definition recordIn (f : CVEField) (id name : string) (vuln : Vulnerability)
    (c : HelmComparison) : HelmComparison :=
  match f with
  | FRemoved => set_RemovedCVEs (recordCVE id name vuln) c
  | FAdded => set_AddedCVEs (recordCVE id name vuln) c
  | FUnchanged => set_UnchangedCVEs (recordCVE id name vuln) c
  end.

Definition recordLoop (sel : string → option CVEField) (name : string)
    (c : HelmComparison) (l : list (string * Vulnerability)) : HelmComparison :=
  foldl (λ c '(id, vuln),
           match sel id with
           | Some f => recordIn f id name vuln c
           | None => c
           end) c l.

(** The fields the two loops of [compareImageVulnerabilities] write to. *)
Definition selBefore (after : ContainerImage) (id : string) : option CVEField :=
  if vulns after !! id is None then Some FRemoved else Some FUnchanged.
Definition selAfter (before : ContainerImage) (id : string) : option CVEField :=
  if vulns before !! id is None then Some FAdded else None.

(** The names of the images of a slice, in order. *)
Definition imageNames (imgs : list (option ContainerImage)) : list string :=
  ImageName <$> omap id imgs.

(** The image [CompareHelmCharts] sees under [name]: the entry of the index
    built from the slice (the last element of that name). *)
Definition imageNamed (chart : HelmChart) (name : string) : option ContainerImage :=
  indexImages (ContainsImages chart) ∅ ≫= λ images, images !! name.

Definition exactly_one3 (A B C : Prop) : Prop :=
  (A ∧ ¬ B ∧ ¬ C) ∨ (¬ A ∧ B ∧ ¬ C) ∨ (¬ A ∧ ¬ B ∧ C).

Definition exactly_one4 (A B C D : Prop) : Prop :=
  (A ∧ ¬ B ∧ ¬ C ∧ ¬ D) ∨ (¬ A ∧ B ∧ ¬ C ∧ ¬ D) ∨
  (¬ A ∧ ¬ B ∧ C ∧ ¬ D) ∨ (¬ A ∧ ¬ B ∧ ¬ C ∧ D).

(** [cves[id][name]] exists. *)
Definition recorded (cves : CVEMap) (id name : string) : Prop :=
  is_Some (lookupCVE cves id name).

(** The (CVE ID, image name) entries of a CVE map. *)
Definition cveEntries (cves : CVEMap) : gset (string * string) :=
  list_to_set ('(id, inner) ← map_to_list cves;
               (λ name, (id, name)) <$> (map_to_list inner).*1).

(** No inner map of a CVE map is empty. *)
Definition inner_nonempty (cves : CVEMap) : Prop :=
  ∀ id inner, cves !! id = Some inner → inner ≠ ∅.

(** The state of [CompareHelmCharts] before its loops, after the loop over
    [beforeImages] and after the loop over [afterImages]. *)
Definition emptyComparison (before after : HelmChart) : HelmComparison :=
  mkHelmComparison before after ∅ ∅ ∅ ∅ ∅ ∅ ∅.
Definition afterBeforeLoop (iter : MapOrder) (before after : HelmChart)
    (beforeImages afterImages : gmap string ContainerImage) : HelmComparison :=
  foldl (compareBeforeImage iter afterImages) (emptyComparison before after)
        (iter _ beforeImages).
Definition afterAfterLoop (iter : MapOrder) (before after : HelmChart)
    (beforeImages afterImages : gmap string ContainerImage) : HelmComparison :=
  foldl (compareAfterImage iter beforeImages)
        (afterBeforeLoop iter before after beforeImages afterImages)
        (iter _ afterImages).

(** No element of the slice is a nil pointer. *)
Definition images_present (chart : HelmChart) : bool :=
  forallb (λ p, bool_decide (is_Some p)) (ContainsImages chart).

(** ** Sample charts *)

(** Same tag on both sides, a CVE reported on the later scan only. *)
Definition app_rescanned :=
  mkContainerImage "docker.io/acme" "v1" "app"
    (Some (<["CVE-2" := vCVE2]> {["CVE-1" := vCVE1]})).
Definition chart_rescanned := mkHelmChart "demo" "1.0.1" "acme" [Some app_rescanned].

(** Two images of the same name in one chart. *)
Definition chart_duplicate :=
  mkHelmChart "demo" "3.0.0" "acme" [Some app_v1; Some app_v2].

(** An image whose vulnerability map is nil. *)
Definition app_unscanned := mkContainerImage "docker.io/acme" "v1" "app" None.
Definition chart_unscanned := mkHelmChart "demo" "4.0.0" "acme" [Some app_unscanned].

(** A nil image pointer, as [Scan] leaves behind for a failed image scan. *)
Definition chart_nil := mkHelmChart "demo" "5.0.0" "acme" [None].

(** Scenario 2 of the specification. *)
Definition vCVE9 := mkVulnerability "CVE-9" "low" "".
Definition sidecar_v1 :=
  mkContainerImage "docker.io/acme" "v1" "sidecar" (Some {["CVE-9" := vCVE9]}).
Definition chart_with_sidecar :=
  mkHelmChart "demo" "1.0.0" "acme" [Some app_v1; Some sidecar_v1].

(** Has the chart two images of the same name, or an image with a nil
    vulnerability map? *)
Definition has_duplicate_names (chart : HelmChart) : bool :=
  bool_decide (¬ NoDup (imageNames (ContainsImages chart))).
Definition has_nil_vulnerabilities (chart : HelmChart) : bool :=
  existsb (λ p, match p with
                | Some img => bool_decide (Vulnerabilities img = None)
                | None => false
                end) (ContainsImages chart).
Definition malformed (chart : HelmChart) : bool :=
  has_duplicate_names chart || has_nil_vulnerabilities chart.

(** Every CVE ID of either image of the pair [(b, a)] is recorded under
    [name] in exactly one of the three CVE maps. *)
Definition cve_partition (cmp : HelmComparison) (name : string)
    (b a : ContainerImage) : Prop :=
  ∀ id, is_Some (vulns b !! id) ∨ is_Some (vulns a !! id) →
    exactly_one3 (recorded (AddedCVEs cmp) id name)
                 (recorded (RemovedCVEs cmp) id name)
                 (recorded (UnchangedCVEs cmp) id name).

(** A chart without images, and the same image pulled from two registries. *)
Definition chart_empty := mkHelmChart "demo" "0.0.0" "acme" [].
Definition app_mirrored :=
  mkContainerImage "ghcr.io/acme" "v1" "app" (Some {["CVE-1" := vCVE1]}).
Definition chart_mirrored := mkHelmChart "demo" "1.0.2" "acme" [Some app_mirrored].

(** The rows of the severity summary, as the specification describes them. *)
Definition expectedSeverityCounts (before after : HelmChart) : list SeverityCount.t :=
  (λ severity,
     SeverityCount.mk severity
       (severityCount severity after) (severityCount severity before)
       (severityCount severity after - severityCount severity before)%Z)
  <$> ["critical"; "high"; "medium"; "low"].

Definition expectedSeverityRows (before after : HelmChart) : list string :=
  (λ severity,
     "| " +:+ severity +:+ " | " +:+ fmt_d (severityCount severity after) +:+
     " | " +:+ fmt_d (severityCount severity before) +:+ " | " +:+
     fmt_plus_d (severityCount severity after - severityCount severity before)%Z +:+
     " |" +:+ NL)
  <$> ["critical"; "high"; "medium"; "low"].

(** Every image reports the same severity for a given CVE ID. *)
Definition consistent_severity (cves : CVEMap) : Prop :=
  ∀ id inner n1 n2 v1 v2,
    cves !! id = Some inner → inner !! n1 = Some v1 → inner !! n2 = Some v2 →
    Severity v1 = Severity v2.

(** A row with its image names put in ascending order: two rows with the
    same ID and severity whose image lists are permutations of each other
    become equal. *)
Definition normalizeImages (cve : SortableCVE.t) : SortableCVE.t :=
  SortableCVE.mk (SortableCVE.ID cve) (SortableCVE.Severity cve)
    (merge_sort String.le (SortableCVE.Images cve)).

(** [notAfter], written positively. *)
Definition cveLe (x y : SortableCVE.t) : Prop :=
  severityRank (SortableCVE.Severity x) < severityRank (SortableCVE.Severity y) ∨
  (severityRank (SortableCVE.Severity x) = severityRank (SortableCVE.Severity y) ∧
   String.le (SortableCVE.ID x) (SortableCVE.ID y)).

(** The severity the loop of helmscan.go 489-492 is left with. *)
Definition lastSeverity (l : list (string * Vulnerability)) : string :=
  from_option (λ e, GetSeverity e.2) "" (last l).

(** The four lists of image rows, whatever the renderer, agree up to the
    order of the rows. *)
Definition same_rows {A} (rows1 rows2 : option (list A)) : Prop :=
  option_Forall2 (≡ₚ) rows1 rows2.

(** The comparison of the empty chart with a chart of two images. *)
Definition comparison_two_added : HelmComparison :=
  mkHelmComparison chart_empty chart_with_sidecar
    (<["sidecar" := [Some sidecar_v1]]> {["app" := [Some app_v1]]}) ∅ ∅ ∅
    ∅ (<["CVE-9" := {["sidecar" := vCVE9]}]> {["CVE-1" := {["app" := vCVE1]}]}) ∅.

(** ** Image and chart references *)

(** [strings.Split(s, sep)], [strings.Join(elems, sep)] and
    [strings.Contains(s, substr)] of the Go standard library.  Every call in
    the repository separates on, or looks for, one character, which is how
    [Split] and [Contains] take it here. *)
Fixpoint Split (s : string) (sep : ascii) : list string :=
  match s with
  | EmptyString => [""]
  | String c rest =>
      if decide (c = sep) then "" :: Split rest sep
      else match Split rest sep with
           | part :: parts => String c part :: parts
           | [] => [String c ""]
           end
  end.

Definition Join (elems : list string) (sep : string) : string :=
  String.concat sep elems.

Fixpoint Contains (s : string) (c : ascii) : bool :=
  match s with
  | EmptyString => false
  | String a rest => bool_decide (a = c) || Contains rest c
  end.

(** [parts[len(parts)-1]] and [parts[:len(parts)-1]]; the callers index a
    slice [Split] returned, which is never empty. *)
Definition lastPart (parts : list string) : string := default "" (last parts).
Definition initParts (parts : list string) : list string :=
  take (length parts - 1) parts.

(** helmscan.go 273-303; the image is returned without vulnerability map. *)
Definition parseImageString (imageString : string) : ContainerImage :=
  let parts := Split imageString ":" in
  if decide (1 < length parts) then
    let tag := lastPart parts in
    let repoAndImage := Join (initParts parts) ":" in
    let repoParts := Split repoAndImage "/" in
    if decide (1 < length repoParts) then
      mkContainerImage (Join (initParts repoParts) "/") tag (lastPart repoParts) None
    else
      mkContainerImage "" tag repoAndImage None
  else
    let repoParts := Split imageString "/" in
    if decide (1 < length repoParts) then
      mkContainerImage (Join (initParts repoParts) "/") "latest" (lastPart repoParts) None
    else
      mkContainerImage "" "latest" imageString None.

(** The reference [Scan] hands to the scanner for an image,
    [fmt.Sprintf("%s/%s:%s", ...)] of helmscan.go 133. *)
Definition scanImageName (img : ContainerImage) : string :=
  Repository img +:+ "/" +:+ ImageName img +:+ ":" +:+ Tag img.

(** helmscan.go 305-316; [inr] carries the message of the error. *)
Definition parseChartReference (chartRef : string)
    : string * string * string + string :=
  let parts := Split chartRef "/" in
  if decide (length parts ≠ 2) then inr ("invalid chart reference: " +:+ chartRef)
  else
    let repoAndChart := default "" (parts !! 1) in
    let repoParts := Split repoAndChart "@" in
    if decide (length repoParts ≠ 2) then
      inr ("invalid chart reference: " +:+ chartRef)
    else
      inl (default "" (parts !! 0), default "" (repoParts !! 0),
           default "" (repoParts !! 1)).

(** cmd/app/main.go 119-122 *)
Definition isHelmChart (ref : string) : bool :=
  Contains ref "/" && Contains ref "@".

(** The test of cmd/app/main.go 136-139 and 149-153 on a chart reference:
    splitting on [@] gives exactly two parts. *)
Definition hasOneVersion (chartRef : string) : bool :=
  bool_decide (length (Split chartRef "@") = 2).

(** ** Scanning a chart *)

(** The loop of helmscan.go 262-268, on the output of the external pipeline
    after [strings.TrimSpace]: one image per line. *)
Definition parseImageLines (trimmed : string) : list ContainerImage :=
  parseImageString <$> Split trimmed "010".

(** The number of occurrences of a character. *)
Fixpoint countChar (s : string) (c : ascii) : nat :=
  match s with
  | EmptyString => 0
  | String a rest => (if decide (a = c) then 1 else 0) + countChar rest c
  end.

(** Modelled from the spec: [imageScan.ScanResult], of which the code reads
    the field [VulnList]. *)
Record ScanResult := mkScanResult {
  VulnList : list Vulnerability
}.

(** [tmpVulns] of helmscan.go 138-143: the vulnerabilities of a scan result
    by ID, the first of an ID is kept. *)
Definition collectVulnerabilities (vulnList : list Vulnerability)
    : gmap string Vulnerability :=
  foldl (λ tmpVulns vuln,
           match tmpVulns !! ID vuln with
           | Some _ => tmpVulns
           | None => <[ID vuln := vuln]> tmpVulns
           end) ∅ vulnList.

Section Scan.
(** [imageScan.ScanImage], the external scanner: a result, or the message
    of an error. *)
Variable ScanImage : string → ScanResult + string.

(** The image [Scan] stores for a scanned one, helmscan.go 144-150. *)
Definition scannedImage (img : ContainerImage) (scanResult : ScanResult)
    : ContainerImage :=
  mkContainerImage (Repository img) (Tag img) (ImageName img)
    (Some (collectVulnerabilities (VulnList scanResult))).

(** Body of the loop at helmscan.go 132-152, on the slice
    [helmChart.ContainsImages] and on [scanErrors]. *)
Definition scanStep (state : list (option ContainerImage) * list string)
    (entry : nat * ContainerImage) : list (option ContainerImage) * list string :=
  let '(containsImages, scanErrors) := state in
  let '(id, img) := entry in
  match ScanImage (scanImageName img) with
  | inr err =>
      (containsImages,
       (scanErrors ++ ["error scanning image " +:+ ImageName img +:+ ": " +:+ err])%list)
  | inl scanResult =>
      (<[id := Some (scannedImage img scanResult)]> containsImages, scanErrors)
  end.

(** helmscan.go 124-158: the part of [Scan] that follows the extraction of
    the images; the chart comes with the error, if any. *)
Definition scanImages (repoName chartName version : string)
    (images : list ContainerImage) : HelmChart * option string :=
  let '(containsImages, scanErrors) :=
    foldl scanStep (replicate (length images) None, [])
          (imap (λ id img, (id, img)) images) in
  let helmChart := mkHelmChart chartName version repoName containsImages in
  if decide (0 < length scanErrors) then
    (helmChart,
     Some ("errors occurred during image scanning:" +:+ NL +:+ Join scanErrors NL))
  else (helmChart, None).

End Scan.

(** The key of helmscan.go 610, [fmt.Sprintf("%s:%s", img.ImageName, id)]. *)
Definition scanKey (imageName id : string) : string :=
  imageName +:+ ":" +:+ id.

(** The loop of helmscan.go 606-612, which collects the vulnerabilities of
    all images for the single-scan report; a nil image pointer panics. *)
Fixpoint collectScanVulns (iter : MapOrder) (imgs : list (option ContainerImage))
    (collected : gmap string Vulnerability) : option (gmap string Vulnerability) :=
  match imgs with
  | [] => Some collected
  | None :: _ => None
  | Some img :: rest =>
      collectScanVulns iter rest
        (foldl (λ collected '(id, v), <[scanKey (ImageName img) id := v]> collected)
               collected (iter _ (vulns img)))
  end.

(** A scanner that knows one image and reports CVE-1 twice for it. *)
Definition sampleScanner (ref : string) : ScanResult + string :=
  if decide (ref = "docker.io/acme/app:v1")
  then inl (mkScanResult [vCVE1; mkVulnerability "CVE-1" "low" "again"])
  else inr "exit status 1".


(** The number of vulnerabilities of a chart whose severity is one of the
    four of the summary, and the number of all its vulnerabilities; both
    per image, over its map. *)
Definition listedCount (chart : HelmChart) : Z :=
  foldr (λ p total,
           (Z.of_nat (size (filter (λ e, Severity e.2 ∈ severities)
                              (from_option vulns ∅ p))) + total)%Z)
        0%Z (ContainsImages chart).

Definition totalCount (chart : HelmChart) : Z :=
  foldr (λ p total, (Z.of_nat (size (from_option vulns ∅ p)) + total)%Z)
        0%Z (ContainsImages chart).

Definition sumZ (l : list Z) : Z := foldr Z.add 0%Z l.

(** An image whose scanner spells the severity in upper case. *)
Definition app_uppercase :=
  mkContainerImage "docker.io/acme" "v1" "app"
    (Some {["CVE-7" := mkVulnerability "CVE-7" "CRITICAL" ""]}).
Definition chart_uppercase := mkHelmChart "demo" "6.0.0" "acme" [Some app_uppercase].
Definition comparison_uppercase : HelmComparison :=
  mkHelmComparison chart_empty chart_uppercase
    {["app" := [Some app_uppercase]]} ∅ ∅ ∅
    ∅ {["CVE-7" := {["app" := mkVulnerability "CVE-7" "CRITICAL" ""]}]} ∅.

(** * Properties *)

Example scenario1 :
  CompareHelmCharts canonical_order chart1 chart2 =
  Some (mkHelmComparison chart1 chart2 ∅ ∅
          {["app" := [Some app_v1; Some app_v2]]} ∅
          ∅ {["CVE-2" := {["app" := vCVE2]}]} {["CVE-1" := {["app" := vCVE1]}]}).
Proof. vm_compute. reflexivity. Qed.

(** ** Iteration orders *)

Lemma canonical_order_valid : valid_order canonical_order.
Proof. intros A m. reflexivity. Qed.

Lemma reversed_order_valid : valid_order reversed_order.
Proof. intros A m. unfold reversed_order. by rewrite reverse_Permutation. Qed.

Section IterationOrder.
Variable iter : MapOrder.
Hypothesis iter_valid : valid_order iter.
Context {A : Type}.
Implicit Types m : gmap string A.

Lemma iter_NoDup_keys m : NoDup (iter A m).*1.
Proof. rewrite (iter_valid A m). apply NoDup_fst_map_to_list. Qed.

Lemma iter_elem_of m k v : (k, v) ∈ iter A m ↔ m !! k = Some v.
Proof. rewrite (iter_valid A m). apply elem_of_map_to_list. Qed.

Lemma iter_to_map m : list_to_map (iter A m) = m.
Proof.
  rewrite <- (list_to_map_to_list m) at 2.
  apply list_to_map_proper; [apply iter_NoDup_keys | apply iter_valid].
Qed.
End IterationOrder.

Lemma foldl_pointwise {S E : Type} (f g : S → E → S) (l : list E) (s : S) :
  (∀ s e, e ∈ l → f s e = g s e) → foldl f s l = foldl g s l.
Proof.
  revert s. induction l as [|e l IH]; intros s Hfg; [done|].
  simpl. rewrite Hfg by left. apply IH. intros; apply Hfg. by right.
Qed.

Lemma foldl_invariant {S E : Type} (P : S → Prop) (f : S → E → S) (l : list E) (s : S) :
  P s → (∀ s e, P s → P (f s e)) → P (foldl f s l).
Proof. revert s. induction l; simpl; eauto. Qed.

(** ** Folding a per-name step over the entries of an index

    A step that only touches what is stored under its own name can be read
    off name by name, whatever the order of the entries. *)
Section FoldByName.
Context {St V X T : Type}.
Variable step : St → string * V → St.
Variable view : St → string → X → T.
Variable good : string → V → Prop.
Variable c0 : St.
Variable G : string → V → X → T.
Hypothesis frame : ∀ c k v n x,
  good k v → n ≠ k → view (step c (k, v)) n x = view c n x.
Hypothesis local : ∀ c k v x,
  good k v → (∀ y, view c k y = view c0 k y) → view (step c (k, v)) k x = G k v x.

Lemma fold_by_name_gen l :
  NoDup l.*1 → (∀ k v, (k, v) ∈ l → good k v) →
  ∀ c, (∀ n x, n ∈ l.*1 → view c n x = view c0 n x) →
  ∀ n x, view (foldl step c l) n x =
         match (list_to_map l : gmap string V) !! n with
         | Some v => G n v x
         | None => view c n x
         end.
Proof.
  induction l as [|[k v] l IH]; intros Hnd Hgood c Hc n x; [done|].
  simpl in *. apply NoDup_cons in Hnd as [Hk Hnd].
  assert (good k v) as Hkv by (apply Hgood; left).
  rewrite IH; [| done | intros; apply Hgood; by right |].
  - destruct (decide (n = k)) as [->|Hne].
    + rewrite lookup_insert_eq.
      rewrite (not_elem_of_list_to_map_1 _ _ Hk).
      apply local; [done|]. intros y. apply Hc. left.
    + rewrite lookup_insert_ne by done.
      destruct (list_to_map l !! n); [done|]. by apply frame.
  - intros n' x' Hn'. rewrite frame; [| done | intros ->; done].
    apply Hc. by right.
Qed.

Lemma fold_by_name l :
  NoDup l.*1 → (∀ k v, (k, v) ∈ l → good k v) →
  ∀ n x, view (foldl step c0 l) n x =
         match (list_to_map l : gmap string V) !! n with
         | Some v => G n v x
         | None => view c0 n x
         end.
Proof. intros Hnd Hgood n x. by apply fold_by_name_gen. Qed.
End FoldByName.

(** ** Recording CVEs *)

Lemma lookupCVE_empty id name : lookupCVE ∅ id name = None.
Proof. unfold lookupCVE. by rewrite lookup_empty. Qed.

Lemma lookupCVE_recordCVE cves id name vuln id' name' :
  lookupCVE (recordCVE id name vuln cves) id' name' =
  if decide (id' = id ∧ name' = name) then Some vuln else lookupCVE cves id' name'.
Proof.
  unfold lookupCVE, recordCVE.
  destruct (decide (id' = id)) as [->|Hid].
  - rewrite lookup_insert_eq. simpl.
    destruct (decide (name' = name)) as [->|Hname].
    + rewrite lookup_insert_eq. by rewrite decide_True.
    + rewrite lookup_insert_ne by done.
      rewrite decide_False by (intros [_ ?]; done).
      destruct (cves !! id); simpl; [done | by rewrite lookup_empty].
  - rewrite lookup_insert_ne by done.
    by rewrite decide_False by (intros [? _]; done).
Qed.

Lemma recordCVE_inner_nonempty cves id name vuln :
  inner_nonempty cves → inner_nonempty (recordCVE id name vuln cves).
Proof.
  intros Hne i inner. unfold recordCVE.
  destruct (decide (i = id)) as [->|Hi].
  - rewrite lookup_insert_eq. intros [= <-]. apply insert_non_empty.
  - rewrite lookup_insert_ne by done. apply Hne.
Qed.

Lemma getCVEs_recordIn f f' id name vuln c :
  getCVEs f (recordIn f' id name vuln c) =
  if decide (f = f') then recordCVE id name vuln (getCVEs f c) else getCVEs f c.
Proof. by destruct f, f'. Qed.

Lemma getImgs_recordIn f f' id name vuln c :
  getImgs f (recordIn f' id name vuln c) = getImgs f c.
Proof. by destruct f, f'. Qed.

Lemma recordLoop_cons sel name c id vuln l :
  recordLoop sel name c ((id, vuln) :: l) =
  recordLoop sel name
    (match sel id with Some f => recordIn f id name vuln c | None => c end) l.
Proof. done. Qed.

Lemma getImgs_recordLoop sel name l c f :
  getImgs f (recordLoop sel name c l) = getImgs f c.
Proof.
  revert c. induction l as [|[id vuln] l IH]; intros c; [done|].
  rewrite recordLoop_cons, IH. destruct (sel id); [|done].
  apply getImgs_recordIn.
Qed.

Lemma Before_After_recordLoop sel name l c :
  Before (recordLoop sel name c l) = Before c ∧
  After (recordLoop sel name c l) = After c.
Proof.
  revert c. induction l as [|[id vuln] l IH]; intros c; [done|].
  rewrite recordLoop_cons. destruct (IH (match sel id with
    Some f => recordIn f id name vuln c | None => c end)) as [-> ->].
  destruct (sel id) as [[]|]; done.
Qed.

(** After the loop, an entry under [name] holds the vulnerability of the
    map entry that selected its field; everything else is as before. *)
Lemma lookupCVE_recordLoop sel name l : NoDup l.*1 → ∀ c f id' name',
  lookupCVE (getCVEs f (recordLoop sel name c l)) id' name' =
  match (list_to_map l : gmap string Vulnerability) !! id' with
  | Some vuln =>
      if decide (name' = name ∧ sel id' = Some f) then Some vuln
      else lookupCVE (getCVEs f c) id' name'
  | None => lookupCVE (getCVEs f c) id' name'
  end.
Proof.
  induction l as [|[id vuln] l IH]; intros Hnd c f id' name'; [done|].
  apply NoDup_cons in Hnd as [Hid Hnd].
  rewrite recordLoop_cons, IH by done. simpl.
  destruct (decide (id' = id)) as [->|Hne].
  - rewrite lookup_insert_eq, (not_elem_of_list_to_map_1 _ _ Hid).
    destruct (sel id) as [f'|] eqn:Hsel.
    + rewrite getCVEs_recordIn. destruct (decide (f = f')) as [->|Hf].
      * rewrite lookupCVE_recordCVE.
        destruct (decide (name' = name)) as [->|Hn].
        -- by rewrite !decide_True.
        -- by rewrite !decide_False by (intros [? ?]; done).
      * by rewrite decide_False by (intros [_ [= ?]]; done).
    + by rewrite decide_False by (intros [_ ?]; done).
  - rewrite lookup_insert_ne by done.
    assert (lookupCVE (getCVEs f (match sel id with
              | Some f0 => recordIn f0 id name vuln c | None => c end)) id' name'
            = lookupCVE (getCVEs f c) id' name') as ->; [|done].
    destruct (sel id) as [f'|]; [|done].
    rewrite getCVEs_recordIn. case_decide; [|done].
    rewrite lookupCVE_recordCVE. by rewrite decide_False by (intros [? _]; done).
Qed.

Lemma inner_nonempty_recordLoop sel name l c f :
  inner_nonempty (getCVEs f c) →
  inner_nonempty (getCVEs f (recordLoop sel name c l)).
Proof.
  revert c. induction l as [|[id vuln] l IH]; intros c Hc; [done|].
  rewrite recordLoop_cons. apply IH.
  destruct (sel id) as [f'|]; [|done].
  rewrite getCVEs_recordIn. case_decide; [|done].
  by apply recordCVE_inner_nonempty.
Qed.

(** ** The loop bodies, read through [recordLoop] *)

Lemma getImgs_set_AddedImages f g c :
  getImgs f (set_AddedImages g c) = if f is IAdded then g (getImgs f c) else getImgs f c.
Proof. by destruct f. Qed.
Lemma getImgs_set_RemovedImages f g c :
  getImgs f (set_RemovedImages g c) = if f is IRemoved then g (getImgs f c) else getImgs f c.
Proof. by destruct f. Qed.
Lemma getImgs_set_ChangedImages f g c :
  getImgs f (set_ChangedImages g c) = if f is IChanged then g (getImgs f c) else getImgs f c.
Proof. by destruct f. Qed.
Lemma getImgs_set_UnChangedImages f g c :
  getImgs f (set_UnChangedImages g c) = if f is IUnChanged then g (getImgs f c) else getImgs f c.
Proof. by destruct f. Qed.

Section LoopBodies.
Variable iter : MapOrder.
Hypothesis iter_valid : valid_order iter.

Lemma compareImageVulnerabilities_loops before after c :
  compareImageVulnerabilities iter before after c =
  recordLoop (selAfter before) (ImageName after)
    (recordLoop (selBefore after) (ImageName before) c (iter _ (vulns before)))
    (iter _ (vulns after)).
Proof.
  unfold compareImageVulnerabilities, recordLoop, selAfter, selBefore.
  erewrite (foldl_pointwise _ _ (iter _ (vulns after))).
  - f_equal. apply foldl_pointwise. intros s [id vuln] _.
    by destruct (vulns after !! id).
  - intros s [id vuln] _. by destruct (vulns before !! id).
Qed.

Lemma compareBeforeImage_loops afterImages c name beforeImg :
  compareBeforeImage iter afterImages c (name, beforeImg) =
  match afterImages !! name with
  | Some afterImg =>
      if decide (Tag beforeImg ≠ Tag afterImg) then
        compareImageVulnerabilities iter beforeImg afterImg
          (set_ChangedImages <[name := [Some beforeImg; Some afterImg]]> c)
      else
        recordLoop (λ _, Some FUnchanged) name
          (set_UnChangedImages <[name := [Some beforeImg; Some afterImg]]> c)
          (iter _ (vulns beforeImg))
  | None =>
      recordLoop (λ _, Some FRemoved) name
        (set_RemovedImages <[name := [Some beforeImg]]> c)
        (iter _ (vulns beforeImg))
  end.
Proof.
  unfold compareBeforeImage, recordLoop.
  destruct (afterImages !! name); [case_decide|]; try done;
    apply foldl_pointwise; by intros s [id vuln] _.
Qed.

Lemma compareAfterImage_loops beforeImages c name afterImg :
  compareAfterImage iter beforeImages c (name, afterImg) =
  match beforeImages !! name with
  | None =>
      recordLoop (λ _, Some FAdded) name
        (set_AddedImages <[name := [Some afterImg]]> c)
        (iter _ (vulns afterImg))
  | Some _ => c
  end.
Proof.
  unfold compareAfterImage, recordLoop.
  destruct (beforeImages !! name); [done|].
  apply foldl_pointwise; by intros s [id vuln] _.
Qed.

Lemma lookupCVE_recordLoop_iter sel name m c f id' name' :
  lookupCVE (getCVEs f (recordLoop sel name c (iter _ m))) id' name' =
  match m !! id' with
  | Some vuln =>
      if decide (name' = name ∧ sel id' = Some f) then Some vuln
      else lookupCVE (getCVEs f c) id' name'
  | None => lookupCVE (getCVEs f c) id' name'
  end.
Proof.
  rewrite lookupCVE_recordLoop by by apply iter_NoDup_keys.
  by rewrite iter_to_map.
Qed.

(** *** Image maps *)

Lemma getImgs_compareBeforeImage afterImages c name beforeImg f n :
  getImgs f (compareBeforeImage iter afterImages c (name, beforeImg)) !! n =
  if decide (n = name) then
    match expectedImages f (Some beforeImg) (afterImages !! name) with
    | Some l => Some l
    | None => getImgs f c !! n
    end
  else getImgs f c !! n.
Proof.
  rewrite compareBeforeImage_loops. unfold expectedImages.
  destruct (afterImages !! name) as [afterImg|]; [case_decide|];
    rewrite ?compareImageVulnerabilities_loops, !getImgs_recordLoop;
    rewrite ?getImgs_set_ChangedImages, ?getImgs_set_UnChangedImages,
      ?getImgs_set_RemovedImages;
    destruct f; case_decide; by simplify_map_eq.
Qed.

Lemma getImgs_compareAfterImage beforeImages c name afterImg f n :
  getImgs f (compareAfterImage iter beforeImages c (name, afterImg)) !! n =
  if decide (n = name) then
    match beforeImages !! name with
    | None =>
        match expectedImages f None (Some afterImg) with
        | Some l => Some l
        | None => getImgs f c !! n
        end
    | Some _ => getImgs f c !! n
    end
  else getImgs f c !! n.
Proof.
  rewrite compareAfterImage_loops. unfold expectedImages.
  destruct (beforeImages !! name); [by case_decide|].
  rewrite getImgs_recordLoop, getImgs_set_AddedImages.
  destruct f; case_decide; by simplify_map_eq.
Qed.

(** *** CVE maps *)

Lemma getCVEs_set_images f g c :
  getCVEs f (set_AddedImages g c) = getCVEs f c ∧
  getCVEs f (set_RemovedImages g c) = getCVEs f c ∧
  getCVEs f (set_ChangedImages g c) = getCVEs f c ∧
  getCVEs f (set_UnChangedImages g c) = getCVEs f c.
Proof. by destruct f. Qed.

Lemma lookupCVE_compareBeforeImage afterImages c name beforeImg f id n :
  ImageName beforeImg = name →
  (∀ a, afterImages !! name = Some a → ImageName a = name) →
  lookupCVE (getCVEs f (compareBeforeImage iter afterImages c (name, beforeImg))) id n =
  if decide (n = name) then
    match expectedCVE f (Some beforeImg) (afterImages !! name) id with
    | Some vuln => Some vuln
    | None => lookupCVE (getCVEs f c) id n
    end
  else lookupCVE (getCVEs f c) id n.
Proof.
  intros Hb Ha. rewrite compareBeforeImage_loops. unfold expectedCVE.
  destruct (afterImages !! name) as [afterImg|] eqn:Hlk; [case_decide|].
  - rewrite compareImageVulnerabilities_loops, !lookupCVE_recordLoop_iter.
    rewrite (Ha afterImg eq_refl), Hb.
    destruct (getCVEs_set_images f <[name:=[Some beforeImg; Some afterImg]]> c)
      as (_ & _ & -> & _).
    unfold selAfter, selBefore.
    destruct (vulns afterImg !! id), (vulns beforeImg !! id), f;
      repeat case_decide; intuition congruence.
  - rewrite lookupCVE_recordLoop_iter.
    destruct (getCVEs_set_images f <[name:=[Some beforeImg; Some afterImg]]> c)
      as (_ & _ & _ & ->).
    destruct (vulns beforeImg !! id), f; repeat case_decide; intuition congruence.
  - rewrite lookupCVE_recordLoop_iter.
    destruct (getCVEs_set_images f <[name:=[Some beforeImg]]> c)
      as (_ & -> & _ & _).
    destruct (vulns beforeImg !! id), f; repeat case_decide; intuition congruence.
Qed.

Lemma lookupCVE_compareAfterImage beforeImages c name afterImg f id n :
  lookupCVE (getCVEs f (compareAfterImage iter beforeImages c (name, afterImg))) id n =
  if decide (n = name) then
    match beforeImages !! name with
    | None =>
        match expectedCVE f None (Some afterImg) id with
        | Some vuln => Some vuln
        | None => lookupCVE (getCVEs f c) id n
        end
    | Some _ => lookupCVE (getCVEs f c) id n
    end
  else lookupCVE (getCVEs f c) id n.
Proof.
  rewrite compareAfterImage_loops. unfold expectedCVE.
  destruct (beforeImages !! name); [by case_decide|].
  rewrite lookupCVE_recordLoop_iter.
  destruct (getCVEs_set_images f <[name:=[Some afterImg]]> c) as (-> & _).
  destruct (vulns afterImg !! id), f; repeat case_decide; intuition congruence.
Qed.
End LoopBodies.

(** ** Indexing the images of a chart by name *)

Lemma indexImages_total imgs images :
  forallb (λ p, bool_decide (is_Some p)) imgs = true →
  is_Some (indexImages imgs images).
Proof.
  revert images. induction imgs as [|[img|] imgs IH]; intros images Hall; simpl in *.
  - by eexists.
  - by apply IH.
  - done.
Qed.

Lemma indexImages_present imgs images m :
  indexImages imgs images = Some m →
  forallb (λ p, bool_decide (is_Some p)) imgs = true.
Proof.
  revert images. induction imgs as [|[img|] imgs IH]; intros images; simpl; try done.
  apply IH.
Qed.

Lemma indexImages_keyed imgs images m :
  indexImages imgs images = Some m →
  (∀ n img, images !! n = Some img → ImageName img = n) →
  ∀ n img, m !! n = Some img → ImageName img = n.
Proof.
  revert images. induction imgs as [|[i|] imgs IH]; intros images; simpl.
  - by intros [= ->].
  - intros Hm Himages. apply (IH _ Hm). intros n img.
    destruct (decide (n = ImageName i)) as [->|Hne].
    + rewrite lookup_insert_eq. by intros [= ->].
    + rewrite lookup_insert_ne by done. apply Himages.
  - done.
Qed.

Lemma indexImages_lookup_other imgs images m n :
  indexImages imgs images = Some m → n ∉ imageNames imgs → m !! n = images !! n.
Proof.
  revert images. induction imgs as [|[i|] imgs IH]; intros images; simpl.
  - by intros [= ->].
  - unfold imageNames; simpl. intros Hm [Hn Hrest]%not_elem_of_cons.
    rewrite (IH _ Hm Hrest). by rewrite lookup_insert_ne.
  - done.
Qed.

Lemma indexImages_covers imgs images m img :
  indexImages imgs images = Some m → Some img ∈ imgs →
  is_Some (m !! ImageName img).
Proof.
  revert images img. induction imgs as [|[i|] imgs IH]; intros images img; simpl.
  - intros _ Hin. by apply elem_of_nil in Hin.
  - intros Hm [[= ->]|Hin]%elem_of_cons; [|by eapply IH].
    destruct (decide (ImageName i ∈ imageNames imgs)) as [Hin|Hout].
    + unfold imageNames in Hin. apply list_elem_of_fmap in Hin as (j & Hj & Hin).
      apply list_elem_of_omap in Hin as (oj & Hin & Hoj). simpl in Hoj. subst oj.
      rewrite Hj. by eapply IH.
    + rewrite (indexImages_lookup_other _ _ _ _ Hm Hout), lookup_insert_eq.
      by eexists.
  - done.
Qed.

(** With pairwise distinct names, every image is found under its name. *)
Lemma indexImages_unique imgs images m img :
  NoDup (imageNames imgs) →
  indexImages imgs images = Some m → Some img ∈ imgs →
  m !! ImageName img = Some img.
Proof.
  revert images. induction imgs as [|[i|] imgs IH]; intros images; simpl.
  - intros _ _ Hin. by apply elem_of_nil in Hin.
  - unfold imageNames; simpl. intros [Hi Hnd]%NoDup_cons Hm.
    intros [[= ->]|Hin]%elem_of_cons; [|by eapply IH].
    rewrite (indexImages_lookup_other _ _ _ _ Hm Hi). apply lookup_insert_eq.
  - done.
Qed.

(** ** The result of [CompareHelmCharts], name by name *)

Section CompareSpec.
Variable iter : MapOrder.
Hypothesis iter_valid : valid_order iter.
Variables before after : HelmChart.
Variables beforeImages afterImages : gmap string ContainerImage.
Hypothesis beforeImages_keyed :
  ∀ n img, beforeImages !! n = Some img → ImageName img = n.
Hypothesis afterImages_keyed :
  ∀ n img, afterImages !! n = Some img → ImageName img = n.

Local Abbreviation comparison0 := (emptyComparison before after).
Local Abbreviation comparison1 :=
  (afterBeforeLoop iter before after beforeImages afterImages).
Local Abbreviation comparison2 :=
  (afterAfterLoop iter before after beforeImages afterImages).

Lemma comparison1_images f n :
  getImgs f comparison1 !! n =
  match beforeImages !! n with
  | Some b => expectedImages f (Some b) (afterImages !! n)
  | None => None
  end.
Proof.
  unfold afterBeforeLoop.
  rewrite (fold_by_name (compareBeforeImage iter afterImages)
             (λ c n f, getImgs f c !! n) (λ _ _, True) comparison0
             (λ k b f, expectedImages f (Some b) (afterImages !! k))).
  - rewrite iter_to_map by done. destruct (beforeImages !! n); [done|].
    by destruct f.
  - intros c k v n' x _ Hne. rewrite getImgs_compareBeforeImage by done.
    by rewrite decide_False.
  - intros c k v x _ Hc. rewrite getImgs_compareBeforeImage by done.
    rewrite decide_True by done. rewrite Hc.
    destruct (expectedImages x (Some v) (afterImages !! k)); [done|].
    by destruct x.
  - by apply iter_NoDup_keys.
  - done.
Qed.

Lemma comparison2_images f n :
  getImgs f comparison2 !! n =
  expectedImages f (beforeImages !! n) (afterImages !! n).
Proof.
  unfold afterAfterLoop.
  rewrite (fold_by_name (compareAfterImage iter beforeImages)
             (λ c n f, getImgs f c !! n) (λ _ _, True) comparison1
             (λ k a f, match beforeImages !! k with
                       | None => expectedImages f None (Some a)
                       | Some _ => getImgs f comparison1 !! k
                       end)).
  - rewrite iter_to_map by done. rewrite !comparison1_images.
    destruct (beforeImages !! n), (afterImages !! n); done.
  - intros c k v n' x _ Hne. rewrite getImgs_compareAfterImage by done.
    by rewrite decide_False.
  - intros c k v x _ Hc. rewrite getImgs_compareAfterImage by done.
    rewrite decide_True by done. rewrite Hc.
    destruct (beforeImages !! k) eqn:Hk; [done|].
    destruct (expectedImages x None (Some v)); [done|].
    by rewrite comparison1_images, Hk.
  - by apply iter_NoDup_keys.
  - done.
Qed.

Lemma comparison1_cves f id n :
  lookupCVE (getCVEs f comparison1) id n =
  match beforeImages !! n with
  | Some b => expectedCVE f (Some b) (afterImages !! n) id
  | None => None
  end.
Proof.
  unfold afterBeforeLoop. etrans.
  { apply (fold_by_name (compareBeforeImage iter afterImages)
             (λ c n x, lookupCVE (getCVEs x.1 c) x.2 n)
             (λ k b, ImageName b = k) comparison0
             (λ k b x, expectedCVE x.1 (Some b) (afterImages !! k) x.2))
      with (x := (f, id)).
    - intros c k v n' x Hk Hne.
      rewrite lookupCVE_compareBeforeImage by eauto. by rewrite decide_False.
    - intros c k v x Hk Hc.
      rewrite lookupCVE_compareBeforeImage by eauto.
      rewrite decide_True by done.
      destruct (expectedCVE x.1 (Some v) (afterImages !! k) x.2); [done|].
      rewrite (Hc x). simpl. destruct (x.1); apply lookupCVE_empty.
    - by apply iter_NoDup_keys.
    - intros k v Hin. apply iter_elem_of in Hin; eauto. }
  rewrite iter_to_map by done. destruct (beforeImages !! n); [done|].
  simpl. destruct f; apply lookupCVE_empty.
Qed.

Lemma comparison2_cves f id n :
  lookupCVE (getCVEs f comparison2) id n =
  expectedCVE f (beforeImages !! n) (afterImages !! n) id.
Proof.
  unfold afterAfterLoop. etrans.
  { apply (fold_by_name (compareAfterImage iter beforeImages)
             (λ c n x, lookupCVE (getCVEs x.1 c) x.2 n)
             (λ _ _, True) comparison1
             (λ k a x, match beforeImages !! k with
                       | None => expectedCVE x.1 None (Some a) x.2
                       | Some _ => lookupCVE (getCVEs x.1 comparison1) x.2 k
                       end))
      with (x := (f, id)).
    - intros c k v n' x _ Hne. rewrite lookupCVE_compareAfterImage by done.
      by rewrite decide_False.
    - intros c k v x _ Hc. rewrite lookupCVE_compareAfterImage by done.
      rewrite decide_True by done. rewrite (Hc x).
      destruct (beforeImages !! k) eqn:Hk; [done|].
      destruct (expectedCVE x.1 None (Some v) x.2); [done|].
      by rewrite comparison1_cves, Hk.
    - by apply iter_NoDup_keys.
    - done. }
  rewrite iter_to_map by done. simpl. rewrite !comparison1_cves.
  destruct (beforeImages !! n), (afterImages !! n); done.
Qed.
End CompareSpec.

(** ** [CompareHelmCharts] against the name-by-name description *)

Lemma Before_After_compareBeforeImage iter afterImages c entry :
  Before (compareBeforeImage iter afterImages c entry) = Before c ∧
  After (compareBeforeImage iter afterImages c entry) = After c.
Proof.
  destruct entry as [name b]. rewrite compareBeforeImage_loops.
  destruct (afterImages !! name); [case_decide|];
    rewrite ?compareImageVulnerabilities_loops;
    repeat match goal with
    | |- context [recordLoop ?s ?n ?c ?l] =>
        destruct (Before_After_recordLoop s n l c) as [-> ->]
    end; done.
Qed.

Lemma Before_After_compareAfterImage iter beforeImages c entry :
  Before (compareAfterImage iter beforeImages c entry) = Before c ∧
  After (compareAfterImage iter beforeImages c entry) = After c.
Proof.
  destruct entry as [name a]. rewrite compareAfterImage_loops.
  destruct (beforeImages !! name); [done|].
  by destruct (Before_After_recordLoop (λ _, Some FAdded) name (iter _ (vulns a))
    (set_AddedImages <[name:=[Some a]]> c)) as [-> ->].
Qed.

Lemma inner_nonempty_compareBeforeImage iter afterImages c entry :
  (∀ f, inner_nonempty (getCVEs f c)) →
  ∀ f, inner_nonempty (getCVEs f (compareBeforeImage iter afterImages c entry)).
Proof.
  intros Hc f. destruct entry as [name b]. rewrite compareBeforeImage_loops.
  destruct (afterImages !! name); [case_decide|];
    rewrite ?compareImageVulnerabilities_loops;
    repeat apply inner_nonempty_recordLoop; (destruct f;
      [apply (Hc FRemoved) | apply (Hc FAdded) | apply (Hc FUnchanged)]).
Qed.

Lemma inner_nonempty_compareAfterImage iter beforeImages c entry :
  (∀ f, inner_nonempty (getCVEs f c)) →
  ∀ f, inner_nonempty (getCVEs f (compareAfterImage iter beforeImages c entry)).
Proof.
  intros Hc f. destruct entry as [name a]. rewrite compareAfterImage_loops.
  destruct (beforeImages !! name); [apply Hc|].
  apply inner_nonempty_recordLoop; (destruct f;
      [apply (Hc FRemoved) | apply (Hc FAdded) | apply (Hc FUnchanged)]).
Qed.

(** The complete description of a comparison: it exists as soon as no image
    pointer is nil, and every map holds, under every name, what
    [expectedImages] and [expectedCVE] say. *)
Lemma CompareHelmCharts_spec iter before after :
  valid_order iter →
  images_present before = true → images_present after = true →
  ∃ cmp beforeImages afterImages,
    CompareHelmCharts iter before after = Some cmp ∧
    indexImages (ContainsImages before) ∅ = Some beforeImages ∧
    indexImages (ContainsImages after) ∅ = Some afterImages ∧
    Before cmp = before ∧ After cmp = after ∧
    (∀ f n, getImgs f cmp !! n =
            expectedImages f (beforeImages !! n) (afterImages !! n)) ∧
    (∀ f id n, lookupCVE (getCVEs f cmp) id n =
               expectedCVE f (beforeImages !! n) (afterImages !! n) id) ∧
    (∀ f, inner_nonempty (getCVEs f cmp)).
Proof.
  intros Hiter Hb Ha.
  destruct (indexImages_total _ ∅ Hb) as [bi Hbi].
  destruct (indexImages_total _ ∅ Ha) as [ai Hai].
  assert (∀ n img, bi !! n = Some img → ImageName img = n) as Hbk
    by (apply (indexImages_keyed _ _ _ Hbi); by intros ? ?; rewrite lookup_empty).
  assert (∀ n img, ai !! n = Some img → ImageName img = n) as Hak
    by (apply (indexImages_keyed _ _ _ Hai); by intros ? ?; rewrite lookup_empty).
  eexists _, bi, ai. unfold CompareHelmCharts. rewrite Hbi, Hai. simpl.
  split; [reflexivity|]. split; [done|]. split; [done|].
  split; [|split; [|split; [|split]]].
  - apply (foldl_invariant (λ c, Before c = before)).
    + apply (foldl_invariant (λ c, Before c = before)); [done|].
      intros c e <-. apply Before_After_compareBeforeImage.
    + intros c e <-. apply Before_After_compareAfterImage.
  - apply (foldl_invariant (λ c, After c = after)).
    + apply (foldl_invariant (λ c, After c = after)); [done|].
      intros c e <-. apply Before_After_compareBeforeImage.
    + intros c e <-. apply Before_After_compareAfterImage.
  - intros f n. by apply (comparison2_images iter Hiter before after bi ai).
  - intros f id n. by apply (comparison2_cves iter Hiter before after bi ai).
  - apply (foldl_invariant (λ c, ∀ f, inner_nonempty (getCVEs f c))).
    + apply (foldl_invariant (λ c, ∀ f, inner_nonempty (getCVEs f c))).
      * intros f id inner. destruct f; simpl; by rewrite lookup_empty.
      * intros c e Hc. by apply inner_nonempty_compareBeforeImage.
    + intros c e Hc. by apply inner_nonempty_compareAfterImage.
Qed.

Lemma CompareHelmCharts_present iter before after cmp :
  CompareHelmCharts iter before after = Some cmp →
  images_present before = true ∧ images_present after = true.
Proof.
  unfold CompareHelmCharts, images_present.
  destruct (indexImages (ContainsImages before) ∅) as [bi|] eqn:Hbi; [|done].
  destruct (indexImages (ContainsImages after) ∅) as [ai|] eqn:Hai; [|done].
  intros _. split; by eapply indexImages_present.
Qed.

(** Two CVE maps without empty inner maps are equal when their entries are. *)
Lemma CVEMap_eq (m1 m2 : CVEMap) :
  inner_nonempty m1 → inner_nonempty m2 →
  (∀ id n, lookupCVE m1 id n = lookupCVE m2 id n) → m1 = m2.
Proof.
  intros H1 H2 Heq. apply map_eq. intros id.
  destruct (m1 !! id) as [i1|] eqn:E1, (m2 !! id) as [i2|] eqn:E2; [| | |done].
  - f_equal. apply map_eq. intros n. specialize (Heq id n).
    unfold lookupCVE in Heq. by rewrite E1, E2 in Heq.
  - destruct (map_choose i1 (H1 _ _ E1)) as (n & v & Hn). specialize (Heq id n).
    unfold lookupCVE in Heq. rewrite E1, E2 in Heq. simpl in Heq. congruence.
  - destruct (map_choose i2 (H2 _ _ E2)) as (n & v & Hn). specialize (Heq id n).
    unfold lookupCVE in Heq. rewrite E1, E2 in Heq. simpl in Heq. congruence.
Qed.

Lemma CVEMap_empty (m : CVEMap) :
  inner_nonempty m → (∀ id n, lookupCVE m id n = None) → m = ∅.
Proof.
  intros Hm Hnone. apply CVEMap_eq; [done| |].
  - intros id inner. by rewrite lookup_empty.
  - intros id n. by rewrite Hnone, lookupCVE_empty.
Qed.

Lemma imageNamed_present chart name img :
  imageNamed chart name = Some img → images_present chart = true.
Proof.
  unfold imageNamed, images_present.
  destruct (indexImages (ContainsImages chart) ∅) eqn:Hidx; [|done].
  intros _. by eapply indexImages_present.
Qed.

Lemma CompareHelmCharts_named iter before after :
  valid_order iter →
  images_present before = true → images_present after = true →
  ∃ cmp,
    CompareHelmCharts iter before after = Some cmp ∧
    Before cmp = before ∧ After cmp = after ∧
    (∀ f n, getImgs f cmp !! n =
            expectedImages f (imageNamed before n) (imageNamed after n)) ∧
    (∀ f id n, lookupCVE (getCVEs f cmp) id n =
               expectedCVE f (imageNamed before n) (imageNamed after n) id) ∧
    (∀ f, inner_nonempty (getCVEs f cmp)).
Proof.
  intros Hiter Hb Ha.
  destruct (CompareHelmCharts_spec iter before after Hiter Hb Ha)
    as (cmp & bi & ai & Hcmp & Hbi & Hai & HB & HA & Himgs & Hcves & Hne).
  exists cmp. unfold imageNamed. rewrite Hbi, Hai. simpl. done.
Qed.

Lemma imageNamed_keyed chart name img :
  imageNamed chart name = Some img → ImageName img = name.
Proof.
  unfold imageNamed.
  destruct (indexImages (ContainsImages chart) ∅) as [m|] eqn:Hidx; [|done].
  simpl. apply (indexImages_keyed _ _ _ Hidx). by intros ? ?; rewrite lookup_empty.
Qed.

Lemma expectedImages_Changed_inv ob oa b a :
  expectedImages IChanged ob oa = Some [Some b; Some a] →
  ob = Some b ∧ oa = Some a ∧ Tag b ≠ Tag a.
Proof.
  unfold expectedImages. destruct ob, oa; try done.
  case_decide; [|done]. by intros [= -> ->].
Qed.

Lemma expectedImages_UnChanged_inv ob oa b a :
  expectedImages IUnChanged ob oa = Some [Some b; Some a] →
  ob = Some b ∧ oa = Some a ∧ Tag b = Tag a.
Proof.
  unfold expectedImages. destruct ob, oa; try done.
  case_decide as Htag; [done|]. intros [= -> ->].
  split; [done|]. split; [done|]. by destruct (decide (Tag b = Tag a)).
Qed.

(** The three CVE maps under one name, for a pair whose tags differ. *)
Lemma recorded_changed cmp name b a id :
  (∀ f, lookupCVE (getCVEs f cmp) id name = expectedCVE f (Some b) (Some a) id) →
  Tag b ≠ Tag a →
  lookupCVE (RemovedCVEs cmp) id name =
    (if vulns a !! id is None then vulns b !! id else None) ∧
  lookupCVE (AddedCVEs cmp) id name =
    (if vulns b !! id is None then vulns a !! id else None) ∧
  lookupCVE (UnchangedCVEs cmp) id name =
    (if vulns a !! id is None then None else vulns b !! id).
Proof.
  intros Hspec Htag.
  pose proof (Hspec FRemoved) as HR. pose proof (Hspec FAdded) as HA.
  pose proof (Hspec FUnchanged) as HU. unfold expectedCVE in *.
  rewrite decide_True in HR, HA, HU by done. done.
Qed.

(** The three CVE maps under one name, for a pair whose tags agree. *)
Lemma recorded_unchanged cmp name b a id :
  (∀ f, lookupCVE (getCVEs f cmp) id name = expectedCVE f (Some b) (Some a) id) →
  Tag b = Tag a →
  lookupCVE (RemovedCVEs cmp) id name = None ∧
  lookupCVE (AddedCVEs cmp) id name = None ∧
  lookupCVE (UnchangedCVEs cmp) id name = vulns b !! id.
Proof.
  intros Hspec Htag.
  pose proof (Hspec FRemoved) as HR. pose proof (Hspec FAdded) as HA.
  pose proof (Hspec FUnchanged) as HU. unfold expectedCVE in *.
  rewrite decide_False in HR, HA, HU by (intros ?; done). done.
Qed.

(** ** Counting severities *)

Section Counting.
Variable iter : MapOrder.
Hypothesis iter_valid : valid_order iter.

Lemma countSeverities_total imgs counts :
  forallb (λ p, bool_decide (is_Some p)) imgs = true →
  is_Some (countSeverities iter imgs counts).
Proof.
  revert counts. induction imgs as [|[img|] imgs IH]; intros counts; simpl.
  - by eexists.
  - apply IH.
  - done.
Qed.

Lemma countSeverities_present imgs counts counts' :
  countSeverities iter imgs counts = Some counts' →
  forallb (λ p, bool_decide (is_Some p)) imgs = true.
Proof.
  revert counts. induction imgs as [|[img|] imgs IH]; intros counts; simpl;
    try done. apply IH.
Qed.

(** The inner loop adds, for each severity, the number of entries of
    that severity. *)
Lemma count_loop (l : list (string * Vulnerability)) (counts : gmap string Z)
    severity :
  default 0%Z (foldl (λ counts '(_, vuln),
                 <[Severity vuln := (default 0 (counts !! Severity vuln) + 1)%Z]> counts)
               counts l !! severity) =
  (default 0 (counts !! severity) +
   Z.of_nat (length (filter (λ e, Severity e.2 = severity) l)))%Z.
Proof.
  revert counts. induction l as [|[id vuln] l IH]; intros counts; simpl.
  - lia.
  - rewrite IH. rewrite filter_cons. simpl.
    destruct (decide (Severity vuln = severity)) as [->|Hne].
    + rewrite lookup_insert_eq. simpl. lia.
    + by rewrite lookup_insert_ne.
Qed.

Lemma size_filter_severity (m : gmap string Vulnerability) severity :
  size (filter (λ e, Severity e.2 = severity) m) =
  length (filter (λ e : string * Vulnerability, Severity e.2 = severity) (iter _ m)).
Proof.
  rewrite <- length_map_to_list, map_filter_alt.
  rewrite (iter_valid _ m).
  apply Permutation_length, map_to_list_to_map.
  eapply sublist_NoDup; [apply (NoDup_fst_map_to_list m)|].
  apply fmap_sublist, sublist_filter.
Qed.

Lemma countSeverities_spec imgs counts counts' severity :
  countSeverities iter imgs counts = Some counts' →
  default 0%Z (counts' !! severity) =
  (default 0 (counts !! severity) +
   foldr (λ p total,
            (Z.of_nat (size (filter (λ e, Severity e.2 = severity)
                               (from_option vulns ∅ p))) + total)%Z)
         0 imgs)%Z.
Proof.
  revert counts. induction imgs as [|[img|] imgs IH]; intros counts; simpl.
  - intros [= ->]. lia.
  - intros Hrest. rewrite (IH _ Hrest), count_loop, size_filter_severity. lia.
  - done.
Qed.

Lemma countSeverities_severityCount chart counts severity :
  countSeverities iter (ContainsImages chart) ∅ = Some counts →
  default 0%Z (counts !! severity) = severityCount severity chart.
Proof.
  intros Hc. rewrite (countSeverities_spec _ _ _ _ Hc), lookup_empty. simpl.
  unfold severityCount. lia.
Qed.
End Counting.

Section SeveritySummary.
Variable iter : MapOrder.
Hypothesis iter_valid : valid_order iter.

Lemma generateJSONSeverityCounts_spec cmp :
  generateJSONSeverityCounts iter cmp =
  if images_present (Before cmp) && images_present (After cmp)
  then Some (expectedSeverityCounts (Before cmp) (After cmp)) else None.
Proof.
  unfold generateJSONSeverityCounts, images_present.
  destruct (countSeverities iter (ContainsImages (Before cmp)) ∅)
    as [prev|] eqn:Hprev; simpl.
  - rewrite (countSeverities_present _ _ _ _ Hprev). simpl.
    destruct (countSeverities iter (ContainsImages (After cmp)) ∅)
      as [cur|] eqn:Hcur; simpl.
    + rewrite (countSeverities_present _ _ _ _ Hcur).
      unfold expectedSeverityCounts, severities. simpl.
      by rewrite !(countSeverities_severityCount iter iter_valid _ _ _ Hprev),
        !(countSeverities_severityCount iter iter_valid _ _ _ Hcur).
    + destruct (forallb _ (ContainsImages (After cmp))) eqn:Hall; [|done].
      destruct (countSeverities_total iter _ ∅ Hall) as [? ?]. congruence.
  - destruct (forallb _ (ContainsImages (Before cmp))) eqn:Hall; [|done].
    destruct (countSeverities_total iter _ ∅ Hall) as [? ?]. congruence.
Qed.

Lemma markdownSeverityRows_spec cmp :
  markdownSeverityRows iter cmp =
  if images_present (Before cmp) && images_present (After cmp)
  then Some (expectedSeverityRows (Before cmp) (After cmp)) else None.
Proof.
  unfold markdownSeverityRows, images_present.
  destruct (countSeverities iter (ContainsImages (Before cmp)) ∅)
    as [prev|] eqn:Hprev; simpl.
  - rewrite (countSeverities_present _ _ _ _ Hprev). simpl.
    destruct (countSeverities iter (ContainsImages (After cmp)) ∅)
      as [cur|] eqn:Hcur; simpl.
    + rewrite (countSeverities_present _ _ _ _ Hcur).
      unfold expectedSeverityRows, severities. simpl.
      by rewrite !(countSeverities_severityCount iter iter_valid _ _ _ Hprev),
        !(countSeverities_severityCount iter iter_valid _ _ _ Hcur).
    + destruct (forallb _ (ContainsImages (After cmp))) eqn:Hall; [|done].
      destruct (countSeverities_total iter _ ∅ Hall) as [? ?]. congruence.
  - destruct (forallb _ (ContainsImages (Before cmp))) eqn:Hall; [|done].
    destruct (countSeverities_total iter _ ∅ Hall) as [? ?]. congruence.
Qed.
End SeveritySummary.

Lemma fmt_plus_d_sign z :
  (0 ≤ z → fmt_plus_d z = "+" +:+ fmt_d z)%Z ∧
  (z < 0 → fmt_plus_d z = "-" +:+ fmt_d (- z))%Z.
Proof.
  unfold fmt_plus_d, fmt_d. split; intros Hz.
  - by rewrite decide_False by lia.
  - rewrite decide_True by lia. destruct z; try lia. done.
Qed.

(** * The diff engine: the claims of the specification *)

Lemma exactly_one4_images cmp b a n :
  (∀ f, getImgs f cmp !! n = expectedImages f b a) →
  is_Some b ∨ is_Some a →
  exactly_one4 (n ∈ dom (AddedImages cmp)) (n ∈ dom (RemovedImages cmp))
               (n ∈ dom (ChangedImages cmp)) (n ∈ dom (UnChangedImages cmp)).
Proof.
  intros Hspec Hba. revert Hba. unfold exactly_one4. rewrite !elem_of_dom.
  rewrite <- (not_eq_None_Some (AddedImages cmp !! n)),
    <- (not_eq_None_Some (RemovedImages cmp !! n)),
    <- (not_eq_None_Some (ChangedImages cmp !! n)),
    <- (not_eq_None_Some (UnChangedImages cmp !! n)).
  pose proof (Hspec IAdded) as HA. pose proof (Hspec IRemoved) as HR.
  pose proof (Hspec IChanged) as HC. pose proof (Hspec IUnChanged) as HU.
  simpl in HA, HR, HC, HU. rewrite HA, HR, HC, HU. clear.
  unfold expectedImages.
  destruct b as [b|], a as [a|]; [case_decide| | |];
    intros [[? ?]|[? ?]]; intuition congruence.
Qed.

(** C1. Partition completeness: the name of every image of either chart is
    a key of exactly one of AddedImages, RemovedImages, ChangedImages and
    UnChangedImages. *)
Theorem C1_partition_completeness iter before after :
  valid_order iter →
  images_present before = true → images_present after = true →
  ∃ cmp, CompareHelmCharts iter before after = Some cmp ∧
    ∀ img, Some img ∈ ContainsImages before ∨ Some img ∈ ContainsImages after →
      exactly_one4 (ImageName img ∈ dom (AddedImages cmp))
                   (ImageName img ∈ dom (RemovedImages cmp))
                   (ImageName img ∈ dom (ChangedImages cmp))
                   (ImageName img ∈ dom (UnChangedImages cmp)).
Proof.
  intros Hiter Hb Ha.
  destruct (CompareHelmCharts_spec iter before after Hiter Hb Ha)
    as (cmp & bi & ai & Hcmp & Hbi & Hai & _ & _ & Himgs & _).
  exists cmp. split; [done|]. intros img Himg.
  apply (exactly_one4_images cmp (bi !! ImageName img) (ai !! ImageName img)).
  - intros f. apply Himgs.
  - destruct Himg as [Hin|Hin]; [left|right]; by eapply indexImages_covers.
Qed.

Lemma C1_partition_completeness_witness :
  valid_order canonical_order ∧
  images_present chart_with_sidecar = true ∧ images_present chart2 = true ∧
  ∃ cmp, CompareHelmCharts canonical_order chart_with_sidecar chart2 = Some cmp ∧
    ∀ img, Some img ∈ ContainsImages chart_with_sidecar ∨
           Some img ∈ ContainsImages chart2 →
      exactly_one4 (ImageName img ∈ dom (AddedImages cmp))
                   (ImageName img ∈ dom (RemovedImages cmp))
                   (ImageName img ∈ dom (ChangedImages cmp))
                   (ImageName img ∈ dom (UnChangedImages cmp)).
Proof.
  split; [apply canonical_order_valid|]. split; [reflexivity|].
  split; [reflexivity|].
  apply (C1_partition_completeness canonical_order chart_with_sidecar chart2);
    [apply canonical_order_valid | reflexivity | reflexivity].
Defined.

(** C2, as amended.  For a pair classified Changed every CVE ID of either
    image is recorded under the image name in exactly one of AddedCVEs,
    RemovedCVEs and UnchangedCVEs.  For a pair classified Unchanged only the
    before image is read: each of its CVE IDs is recorded in UnchangedCVEs
    and in no other map, and an ID that only the after image has is
    recorded nowhere. *)
Theorem C2_cve_partition_per_pair iter before after :
  valid_order iter →
  images_present before = true → images_present after = true →
  ∃ cmp, CompareHelmCharts iter before after = Some cmp ∧
    (∀ name b a, ChangedImages cmp !! name = Some [Some b; Some a] →
       cve_partition cmp name b a) ∧
    (∀ name b a, UnChangedImages cmp !! name = Some [Some b; Some a] →
       ∀ id,
         (is_Some (vulns b !! id) →
            recorded (UnchangedCVEs cmp) id name ∧
            ¬ recorded (AddedCVEs cmp) id name ∧
            ¬ recorded (RemovedCVEs cmp) id name) ∧
         (vulns b !! id = None →
            ¬ recorded (UnchangedCVEs cmp) id name ∧
            ¬ recorded (AddedCVEs cmp) id name ∧
            ¬ recorded (RemovedCVEs cmp) id name)).
Proof.
  intros Hiter Hb Ha.
  destruct (CompareHelmCharts_named iter before after Hiter Hb Ha)
    as (cmp & Hcmp & _ & _ & Himgs & Hcves & _).
  exists cmp. split; [done|]. split.
  - intros name b a Hch id Hid.
    pose proof (Himgs IChanged name) as Hexp. simpl in Hexp.
    rewrite Hch in Hexp. symmetry in Hexp.
    apply expectedImages_Changed_inv in Hexp as (Hbn & Han & Htag).
    destruct (recorded_changed cmp name b a id) as (HR & HA & HU); [|done|].
    { intros f. by rewrite Hcves, Hbn, Han. }
    unfold exactly_one3, recorded. rewrite HR, HA, HU.
    rewrite <- !not_eq_None_Some in *.
    destruct (vulns b !! id), (vulns a !! id); intuition congruence.
  - intros name b a Hun id.
    pose proof (Himgs IUnChanged name) as Hexp. simpl in Hexp.
    rewrite Hun in Hexp. symmetry in Hexp.
    apply expectedImages_UnChanged_inv in Hexp as (Hbn & Han & Htag).
    destruct (recorded_unchanged cmp name b a id) as (HR & HA & HU); [|done|].
    { intros f. by rewrite Hcves, Hbn, Han. }
    unfold recorded. rewrite HR, HA, HU. rewrite <- !not_eq_None_Some.
    destruct (vulns b !! id); intuition congruence.
Qed.

Lemma C2_cve_partition_per_pair_witness :
  valid_order canonical_order ∧
  images_present chart1 = true ∧ images_present chart2 = true ∧
  ∃ cmp, CompareHelmCharts canonical_order chart1 chart2 = Some cmp ∧
    (∀ name b a, ChangedImages cmp !! name = Some [Some b; Some a] →
       cve_partition cmp name b a) ∧
    (∀ name b a, UnChangedImages cmp !! name = Some [Some b; Some a] →
       ∀ id,
         (is_Some (vulns b !! id) →
            recorded (UnchangedCVEs cmp) id name ∧
            ¬ recorded (AddedCVEs cmp) id name ∧
            ¬ recorded (RemovedCVEs cmp) id name) ∧
         (vulns b !! id = None →
            ¬ recorded (UnchangedCVEs cmp) id name ∧
            ¬ recorded (AddedCVEs cmp) id name ∧
            ¬ recorded (RemovedCVEs cmp) id name)).
Proof.
  split; [apply canonical_order_valid|]. split; [reflexivity|].
  split; [reflexivity|].
  apply (C2_cve_partition_per_pair canonical_order chart1 chart2);
    [apply canonical_order_valid | reflexivity | reflexivity].
Defined.

(** C2 as stated fails on a pair classified Unchanged: the image [app] has
    the same tag in both charts, the later scan reports CVE-2 as well, and
    CVE-2 is recorded in none of the three maps. *)
Lemma C2_counterexample :
  ∃ cmp, CompareHelmCharts canonical_order chart1 chart_rescanned = Some cmp ∧
    UnChangedImages cmp !! "app" = Some [Some app_v1; Some app_rescanned] ∧
    ¬ cve_partition cmp "app" app_v1 app_rescanned.
Proof.
  eexists. split; [vm_compute; reflexivity|]. split; [vm_compute; reflexivity|].
  intros Hpart.
  destruct (Hpart "CVE-2") as [(H & _)|[(_ & H & _)|(_ & _ & H)]];
    try (right; by eexists); vm_compute in H; by destruct H.
Qed.

(** C3. CVE-level sub-diff of a pair classified Changed: an ID only the
    before image has is in RemovedCVEs with the before vulnerability, an ID
    only the after image has is in AddedCVEs with the after vulnerability,
    an ID both have is in UnchangedCVEs with the before vulnerability; each
    under the name of the image. *)
Theorem C3_changed_pair_sub_diff iter before after :
  valid_order iter →
  images_present before = true → images_present after = true →
  ∃ cmp, CompareHelmCharts iter before after = Some cmp ∧
    ∀ name b a, ChangedImages cmp !! name = Some [Some b; Some a] →
      ImageName b = name ∧ ImageName a = name ∧
      ∀ id,
        (∀ v, vulns b !! id = Some v → vulns a !! id = None →
              lookupCVE (RemovedCVEs cmp) id name = Some v) ∧
        (∀ v, vulns b !! id = None → vulns a !! id = Some v →
              lookupCVE (AddedCVEs cmp) id name = Some v) ∧
        (∀ v, vulns b !! id = Some v → is_Some (vulns a !! id) →
              lookupCVE (UnchangedCVEs cmp) id name = Some v).
Proof.
  intros Hiter Hb Ha.
  destruct (CompareHelmCharts_named iter before after Hiter Hb Ha)
    as (cmp & Hcmp & _ & _ & Himgs & Hcves & _).
  exists cmp. split; [done|]. intros name b a Hch.
  pose proof (Himgs IChanged name) as Hexp. simpl in Hexp.
  rewrite Hch in Hexp. symmetry in Hexp.
  apply expectedImages_Changed_inv in Hexp as (Hbn & Han & Htag).
  split; [by eapply imageNamed_keyed|]. split; [by eapply imageNamed_keyed|].
  intros id.
  destruct (recorded_changed cmp name b a id) as (HR & HA & HU); [|done|].
  { intros f. by rewrite Hcves, Hbn, Han. }
  rewrite HR, HA, HU. repeat split.
  - by intros v -> ->.
  - by intros v -> ->.
  - intros v -> [w ->]. done.
Qed.

Lemma C3_changed_pair_sub_diff_witness :
  valid_order canonical_order ∧
  images_present chart1 = true ∧ images_present chart2 = true ∧
  ∃ cmp, CompareHelmCharts canonical_order chart1 chart2 = Some cmp ∧
    ∀ name b a, ChangedImages cmp !! name = Some [Some b; Some a] →
      ImageName b = name ∧ ImageName a = name ∧
      ∀ id,
        (∀ v, vulns b !! id = Some v → vulns a !! id = None →
              lookupCVE (RemovedCVEs cmp) id name = Some v) ∧
        (∀ v, vulns b !! id = None → vulns a !! id = Some v →
              lookupCVE (AddedCVEs cmp) id name = Some v) ∧
        (∀ v, vulns b !! id = Some v → is_Some (vulns a !! id) →
              lookupCVE (UnchangedCVEs cmp) id name = Some v).
Proof.
  split; [apply canonical_order_valid|]. split; [reflexivity|].
  split; [reflexivity|].
  apply (C3_changed_pair_sub_diff canonical_order chart1 chart2);
    [apply canonical_order_valid | reflexivity | reflexivity].
Defined.

(** C4. Tag policy: an image name present on both sides is Changed exactly
    when the two tags differ and Unchanged exactly when they are equal,
    whatever the repositories and the vulnerability maps; for an Unchanged
    pair UnchangedCVEs holds, under that name, exactly the before image's
    vulnerabilities, and nothing is recorded under it in AddedCVEs or
    RemovedCVEs. *)
Theorem C4_tag_policy iter before after name b a :
  valid_order iter →
  imageNamed before name = Some b → imageNamed after name = Some a →
  ∃ cmp, CompareHelmCharts iter before after = Some cmp ∧
    (name ∈ dom (ChangedImages cmp) ↔ Tag b ≠ Tag a) ∧
    (name ∈ dom (UnChangedImages cmp) ↔ Tag b = Tag a) ∧
    (Tag b ≠ Tag a → ChangedImages cmp !! name = Some [Some b; Some a]) ∧
    (Tag b = Tag a →
       UnChangedImages cmp !! name = Some [Some b; Some a] ∧
       ∀ id, lookupCVE (UnchangedCVEs cmp) id name = vulns b !! id ∧
             lookupCVE (AddedCVEs cmp) id name = None ∧
             lookupCVE (RemovedCVEs cmp) id name = None).
Proof.
  intros Hiter Hbn Han.
  destruct (CompareHelmCharts_named iter before after Hiter)
    as (cmp & Hcmp & _ & _ & Himgs & Hcves & _);
    [by eapply imageNamed_present | by eapply imageNamed_present |].
  exists cmp. split; [done|].
  pose proof (Himgs IChanged name) as HC. pose proof (Himgs IUnChanged name) as HU.
  simpl in HC, HU. rewrite Hbn, Han in HC, HU. unfold expectedImages in HC, HU.
  rewrite !elem_of_dom, HC, HU.
  destruct (decide (Tag b ≠ Tag a)) as [Hne|Heq].
  - split; [split; [done|by eexists]|]. split; [split; [by intros [? ?]|done]|].
    split; done.
  - assert (Tag b = Tag a) as Htag by by destruct (decide (Tag b = Tag a)).
    split; [split; [by intros [? ?]|done]|]. split; [split; [done|by eexists]|].
    split; [done|]. intros _. split; [done|]. intros id.
    destruct (recorded_unchanged cmp name b a id) as (HR' & HA' & HU'); [|done|].
    { intros f. by rewrite Hcves, Hbn, Han. }
    done.
Qed.

Lemma C4_tag_policy_witness :
  valid_order canonical_order ∧
  imageNamed chart1 "app" = Some app_v1 ∧
  imageNamed chart_rescanned "app" = Some app_rescanned ∧
  ∃ cmp, CompareHelmCharts canonical_order chart1 chart_rescanned = Some cmp ∧
    ("app" ∈ dom (ChangedImages cmp) ↔ Tag app_v1 ≠ Tag app_rescanned) ∧
    ("app" ∈ dom (UnChangedImages cmp) ↔ Tag app_v1 = Tag app_rescanned) ∧
    (Tag app_v1 ≠ Tag app_rescanned →
       ChangedImages cmp !! "app" = Some [Some app_v1; Some app_rescanned]) ∧
    (Tag app_v1 = Tag app_rescanned →
       UnChangedImages cmp !! "app" = Some [Some app_v1; Some app_rescanned] ∧
       ∀ id, lookupCVE (UnchangedCVEs cmp) id "app" = vulns app_v1 !! id ∧
             lookupCVE (AddedCVEs cmp) id "app" = None ∧
             lookupCVE (RemovedCVEs cmp) id "app" = None).
Proof.
  split; [apply canonical_order_valid|]. split; [reflexivity|].
  split; [reflexivity|].
  apply (C4_tag_policy canonical_order chart1 chart_rescanned "app");
    [apply canonical_order_valid | reflexivity | reflexivity].
Defined.

Lemma expectedImages_swap b a :
  expectedImages IAdded b a = expectedImages IRemoved a b.
Proof. unfold expectedImages. destruct b, a; try done. by repeat case_decide. Qed.

Lemma expectedCVE_swap b a id :
  expectedCVE FAdded b a id = expectedCVE FRemoved a b id.
Proof.
  unfold expectedCVE. destruct b as [b|], a as [a|]; try done.
  repeat case_decide; try done; congruence.
Qed.

Lemma elem_of_cveEntries cves id name :
  (id, name) ∈ cveEntries cves ↔ recorded cves id name.
Proof.
  unfold cveEntries, recorded, lookupCVE.
  rewrite elem_of_list_to_set, list_elem_of_bind. split.
  - intros ([id' inner] & Hin & Hentry).
    apply list_elem_of_fmap in Hin as (n & [= -> ->] & Hn).
    apply list_elem_of_fmap in Hn as ([n' v] & -> & Hn).
    apply elem_of_map_to_list in Hentry, Hn. rewrite Hentry. simpl. by eexists.
  - destruct (cves !! id) as [inner|] eqn:Hid; simpl; [|by intros [? ?]].
    intros [v Hv]. exists (id, inner). split; [|by apply elem_of_map_to_list].
    apply list_elem_of_fmap. exists name. split; [done|].
    apply list_elem_of_fmap. exists (name, v). split; [done|].
    by apply elem_of_map_to_list.
Qed.

(** C5. Idempotence: comparing a chart with itself adds, removes and
    changes nothing, every image is Unchanged, no CVE is Added or Removed,
    every CVE of every image is in UnchangedCVEs (the images having
    pairwise distinct names; in any case UnchangedCVEs holds, under each
    name, the vulnerability map of the image the chart holds under that
    name), and every severity difference of the JSON and of the Markdown
    summary is zero. *)
Theorem C5_idempotence iter A :
  valid_order iter → images_present A = true →
  ∃ cmp, CompareHelmCharts iter A A = Some cmp ∧
    AddedImages cmp = ∅ ∧ RemovedImages cmp = ∅ ∧ ChangedImages cmp = ∅ ∧
    (∀ img, Some img ∈ ContainsImages A →
       ImageName img ∈ dom (UnChangedImages cmp)) ∧
    AddedCVEs cmp = ∅ ∧ RemovedCVEs cmp = ∅ ∧
    (∀ name img, imageNamed A name = Some img →
       UnChangedImages cmp !! name = Some [Some img; Some img] ∧
       ∀ id, lookupCVE (UnchangedCVEs cmp) id name = vulns img !! id) ∧
    (NoDup (imageNames (ContainsImages A)) →
     ∀ img id v, Some img ∈ ContainsImages A → vulns img !! id = Some v →
       UnChangedImages cmp !! ImageName img = Some [Some img; Some img] ∧
       lookupCVE (UnchangedCVEs cmp) id (ImageName img) = Some v) ∧
    (∃ counts, generateJSONSeverityCounts iter cmp = Some counts ∧
       SeverityCount.Severity <$> counts = severities ∧
       Forall (λ c, SeverityCount.Difference c = 0%Z) counts) ∧
    markdownSeverityRows iter cmp =
      Some ((λ severity,
               "| " +:+ severity +:+ " | " +:+ fmt_d (severityCount severity A) +:+
               " | " +:+ fmt_d (severityCount severity A) +:+ " | +0 |" +:+ NL)
            <$> severities).
Proof.
  intros Hiter HA.
  destruct (CompareHelmCharts_spec iter A A Hiter HA HA)
    as (cmp & bi & ai & Hcmp & Hbi & Hai & HB & HAf & Himgs & Hcves & Hne).
  assert (ai = bi) as -> by congruence.
  exists cmp. split; [done|].
  assert (∀ f, f ≠ IUnChanged → getImgs f cmp = ∅) as Hempty.
  { intros f Hf. apply map_empty. intros n. rewrite Himgs. unfold expectedImages.
    destruct (bi !! n); [|done]. rewrite decide_False by (intros ?; done).
    by destruct f. }
  assert (∀ f, f ≠ FUnchanged → getCVEs f cmp = ∅) as Hcempty.
  { intros f Hf. apply CVEMap_empty; [apply Hne|]. intros id n.
    rewrite Hcves. unfold expectedCVE.
    destruct (bi !! n); [|done]. rewrite decide_False by (intros ?; done).
    by destruct f. }
  split; [by apply (Hempty IAdded)|]. split; [by apply (Hempty IRemoved)|].
  split; [by apply (Hempty IChanged)|]. split.
  { intros img Hin. apply elem_of_dom.
    pose proof (Himgs IUnChanged (ImageName img)) as HU. simpl in HU. rewrite HU.
    destruct (indexImages_covers _ _ _ _ Hbi Hin) as [b ->].
    unfold expectedImages. rewrite decide_False by (intros ?; done). by eexists. }
  split; [by apply (Hcempty FAdded)|]. split; [by apply (Hcempty FRemoved)|].
  assert (∀ name img, bi !! name = Some img →
            UnChangedImages cmp !! name = Some [Some img; Some img] ∧
            ∀ id, lookupCVE (UnchangedCVEs cmp) id name = vulns img !! id)
    as Hunchanged.
  { intros name img Hname.
    pose proof (Himgs IUnChanged name) as HU. simpl in HU. rewrite HU, Hname.
    unfold expectedImages. rewrite decide_False by (intros ?; done).
    split; [done|]. intros id.
    pose proof (Hcves FUnchanged id name) as HUc. simpl in HUc.
    rewrite HUc, Hname. unfold expectedCVE.
    by rewrite decide_False by (intros ?; done). }
  split.
  { intros name img. unfold imageNamed. rewrite Hbi. simpl. apply Hunchanged. }
  split.
  { intros Hnd img id v Hin Hv.
    destruct (Hunchanged _ _ (indexImages_unique _ _ _ _ Hnd Hbi Hin)) as [HU HUc].
    split; [done|]. by rewrite HUc. }
  rewrite generateJSONSeverityCounts_spec, markdownSeverityRows_spec by done.
  rewrite HB, HAf, HA. simpl. split.
  - eexists. split; [done|]. split; [done|].
    unfold expectedSeverityCounts. repeat constructor; simpl; lia.
  - unfold expectedSeverityRows, severities. simpl. by rewrite !Z.sub_diag.
Qed.

Lemma C5_idempotence_witness :
  valid_order canonical_order ∧ images_present chart_with_sidecar = true ∧
  ∃ cmp, CompareHelmCharts canonical_order chart_with_sidecar chart_with_sidecar
         = Some cmp ∧
    AddedImages cmp = ∅ ∧ RemovedImages cmp = ∅ ∧ ChangedImages cmp = ∅ ∧
    (∀ img, Some img ∈ ContainsImages chart_with_sidecar →
       ImageName img ∈ dom (UnChangedImages cmp)) ∧
    AddedCVEs cmp = ∅ ∧ RemovedCVEs cmp = ∅ ∧
    (∀ name img, imageNamed chart_with_sidecar name = Some img →
       UnChangedImages cmp !! name = Some [Some img; Some img] ∧
       ∀ id, lookupCVE (UnchangedCVEs cmp) id name = vulns img !! id) ∧
    (NoDup (imageNames (ContainsImages chart_with_sidecar)) →
     ∀ img id v, Some img ∈ ContainsImages chart_with_sidecar →
       vulns img !! id = Some v →
       UnChangedImages cmp !! ImageName img = Some [Some img; Some img] ∧
       lookupCVE (UnchangedCVEs cmp) id (ImageName img) = Some v) ∧
    (∃ counts, generateJSONSeverityCounts canonical_order cmp = Some counts ∧
       SeverityCount.Severity <$> counts = severities ∧
       Forall (λ c, SeverityCount.Difference c = 0%Z) counts) ∧
    markdownSeverityRows canonical_order cmp =
      Some ((λ severity,
               "| " +:+ severity +:+ " | " +:+
               fmt_d (severityCount severity chart_with_sidecar) +:+ " | " +:+
               fmt_d (severityCount severity chart_with_sidecar) +:+
               " | +0 |" +:+ NL)
            <$> severities).
Proof.
  split; [apply canonical_order_valid|]. split; [reflexivity|].
  apply (C5_idempotence canonical_order chart_with_sidecar);
    [apply canonical_order_valid | reflexivity].
Defined.

(** C6. Anti-symmetry: what [Compare(A, B)] calls Added is what
    [Compare(B, A)] calls Removed and the other way round, for the image
    names and for the (CVE ID, image name) entries; the maps are even
    equal, values included. *)
Theorem C6_anti_symmetry iterAB iterBA A B :
  valid_order iterAB → valid_order iterBA →
  images_present A = true → images_present B = true →
  ∃ ab ba,
    CompareHelmCharts iterAB A B = Some ab ∧
    CompareHelmCharts iterBA B A = Some ba ∧
    dom (AddedImages ab) = dom (RemovedImages ba) ∧
    dom (RemovedImages ab) = dom (AddedImages ba) ∧
    cveEntries (AddedCVEs ab) = cveEntries (RemovedCVEs ba) ∧
    cveEntries (RemovedCVEs ab) = cveEntries (AddedCVEs ba) ∧
    AddedImages ab = RemovedImages ba ∧ RemovedImages ab = AddedImages ba ∧
    AddedCVEs ab = RemovedCVEs ba ∧ RemovedCVEs ab = AddedCVEs ba.
Proof.
  intros HiterAB HiterBA HA HB.
  destruct (CompareHelmCharts_named iterAB A B HiterAB HA HB)
    as (ab & Hab & _ & _ & Himgs1 & Hcves1 & Hne1).
  destruct (CompareHelmCharts_named iterBA B A HiterBA HB HA)
    as (ba & Hba & _ & _ & Himgs2 & Hcves2 & Hne2).
  exists ab, ba. split; [done|]. split; [done|].
  assert (AddedImages ab = RemovedImages ba) as HAR.
  { apply map_eq. intros n.
    change (getImgs IAdded ab !! n = getImgs IRemoved ba !! n).
    rewrite Himgs1, Himgs2. apply expectedImages_swap. }
  assert (RemovedImages ab = AddedImages ba) as HRA.
  { apply map_eq. intros n.
    change (getImgs IRemoved ab !! n = getImgs IAdded ba !! n).
    rewrite Himgs1, Himgs2. symmetry. apply expectedImages_swap. }
  assert (AddedCVEs ab = RemovedCVEs ba) as HcAR.
  { apply CVEMap_eq; [apply (Hne1 FAdded) | apply (Hne2 FRemoved) |].
    intros id n.
    change (lookupCVE (getCVEs FAdded ab) id n = lookupCVE (getCVEs FRemoved ba) id n).
    rewrite Hcves1, Hcves2. apply expectedCVE_swap. }
  assert (RemovedCVEs ab = AddedCVEs ba) as HcRA.
  { apply CVEMap_eq; [apply (Hne1 FRemoved) | apply (Hne2 FAdded) |].
    intros id n.
    change (lookupCVE (getCVEs FRemoved ab) id n = lookupCVE (getCVEs FAdded ba) id n).
    rewrite Hcves1, Hcves2. symmetry. apply expectedCVE_swap. }
  by rewrite HAR, HRA, HcAR, HcRA.
Qed.

Lemma C6_anti_symmetry_witness :
  valid_order canonical_order ∧ valid_order reversed_order ∧
  images_present chart_with_sidecar = true ∧ images_present chart2 = true ∧
  ∃ ab ba,
    CompareHelmCharts canonical_order chart_with_sidecar chart2 = Some ab ∧
    CompareHelmCharts reversed_order chart2 chart_with_sidecar = Some ba ∧
    dom (AddedImages ab) = dom (RemovedImages ba) ∧
    dom (RemovedImages ab) = dom (AddedImages ba) ∧
    cveEntries (AddedCVEs ab) = cveEntries (RemovedCVEs ba) ∧
    cveEntries (RemovedCVEs ab) = cveEntries (AddedCVEs ba) ∧
    AddedImages ab = RemovedImages ba ∧ RemovedImages ab = AddedImages ba ∧
    AddedCVEs ab = RemovedCVEs ba ∧ RemovedCVEs ab = AddedCVEs ba.
Proof.
  split; [apply canonical_order_valid|]. split; [apply reversed_order_valid|].
  split; [reflexivity|]. split; [reflexivity|].
  apply (C6_anti_symmetry canonical_order reversed_order chart_with_sidecar chart2);
    [apply canonical_order_valid | apply reversed_order_valid
    | reflexivity | reflexivity].
Defined.

(** ** Charts that break the data model *)

Lemma indexImages_app l1 l2 images :
  indexImages (l1 ++ l2)%list images = indexImages l1 images ≫= indexImages l2.
Proof.
  revert images. induction l1 as [|[img|] l1 IH]; intros images; simpl; [done| |done].
  apply IH.
Qed.

(** Among images of the same name the last one of the slice is indexed. *)
Lemma imageNamed_last chart l1 img l2 :
  images_present chart = true →
  ContainsImages chart = (l1 ++ Some img :: l2)%list →
  ImageName img ∉ imageNames l2 →
  imageNamed chart (ImageName img) = Some img.
Proof.
  unfold images_present, imageNamed. intros Hpres Hsplit Hlast.
  rewrite Hsplit in *.
  destruct (indexImages_total _ ∅ Hpres) as [m Hm]. rewrite Hm. simpl.
  rewrite indexImages_app in Hm.
  destruct (indexImages l1 ∅) as [m1|]; [|done]. simpl in Hm.
  rewrite (indexImages_lookup_other _ _ _ _ Hm Hlast). apply lookup_insert_eq.
Qed.

(** C9, as amended.  [CompareHelmCharts] validates nothing.  It returns a
    comparison exactly when no image pointer of either chart is nil.  With
    duplicate names the last image of a name stands for that name; an image
    whose vulnerability map is nil is compared like one with an empty
    map. *)
Theorem C9_no_validation iter before after :
  valid_order iter →
  (is_Some (CompareHelmCharts iter before after) ↔
     images_present before = true ∧ images_present after = true) ∧
  ∀ cmp, CompareHelmCharts iter before after = Some cmp →
    (∀ l1 img l2,
       ContainsImages before = (l1 ++ Some img :: l2)%list →
       ImageName img ∉ imageNames l2 →
       ∀ f, getImgs f cmp !! ImageName img =
            expectedImages f (Some img) (imageNamed after (ImageName img))) ∧
    (∀ l1 img l2,
       ContainsImages after = (l1 ++ Some img :: l2)%list →
       ImageName img ∉ imageNames l2 →
       ∀ f, getImgs f cmp !! ImageName img =
            expectedImages f (imageNamed before (ImageName img)) (Some img)) ∧
    (∀ name b, imageNamed before name = Some b → Vulnerabilities b = None →
       ∀ id, lookupCVE (RemovedCVEs cmp) id name = None ∧
             lookupCVE (UnchangedCVEs cmp) id name = None) ∧
    (∀ name a, imageNamed after name = Some a → Vulnerabilities a = None →
       ∀ id, lookupCVE (AddedCVEs cmp) id name = None).
Proof.
  intros Hiter. split.
  { split.
    - intros [cmp Hcmp]. by eapply CompareHelmCharts_present.
    - intros [Hb Ha].
      destruct (CompareHelmCharts_named iter before after Hiter Hb Ha)
        as (cmp & -> & _). by eexists. }
  intros cmp Hcmp.
  destruct (CompareHelmCharts_present _ _ _ _ Hcmp) as [Hb Ha].
  destruct (CompareHelmCharts_named iter before after Hiter Hb Ha)
    as (cmp' & Hcmp' & _ & _ & Himgs & Hcves & _).
  assert (cmp' = cmp) as -> by congruence.
  split; [|split; [|split]].
  - intros l1 img l2 Hsplit Hlast f.
    by rewrite Himgs, (imageNamed_last before l1 img l2).
  - intros l1 img l2 Hsplit Hlast f.
    by rewrite Himgs, (imageNamed_last after l1 img l2).
  - intros name b Hbn Hnil id.
    change (lookupCVE (getCVEs FRemoved cmp) id name = None ∧
            lookupCVE (getCVEs FUnchanged cmp) id name = None).
    rewrite !Hcves, Hbn. unfold expectedCVE, vulns. rewrite Hnil. simpl.
    rewrite lookup_empty.
    destruct (imageNamed after name) as [a|]; [|done].
    case_decide; [|done]. by destruct (default ∅ (Vulnerabilities a) !! id).
  - intros name a Han Hnil id.
    change (lookupCVE (getCVEs FAdded cmp) id name = None).
    rewrite Hcves, Han. unfold expectedCVE, vulns. rewrite Hnil. simpl.
    rewrite lookup_empty.
    destruct (imageNamed before name) as [b|]; [|done].
    case_decide; [|done]. by destruct (default ∅ (Vulnerabilities b) !! id).
Qed.

Lemma C9_no_validation_witness :
  valid_order canonical_order ∧
  (is_Some (CompareHelmCharts canonical_order chart_duplicate chart_unscanned) ↔
     images_present chart_duplicate = true ∧ images_present chart_unscanned = true) ∧
  ∀ cmp, CompareHelmCharts canonical_order chart_duplicate chart_unscanned = Some cmp →
    (∀ l1 img l2,
       ContainsImages chart_duplicate = (l1 ++ Some img :: l2)%list →
       ImageName img ∉ imageNames l2 →
       ∀ f, getImgs f cmp !! ImageName img =
            expectedImages f (Some img) (imageNamed chart_unscanned (ImageName img))) ∧
    (∀ l1 img l2,
       ContainsImages chart_unscanned = (l1 ++ Some img :: l2)%list →
       ImageName img ∉ imageNames l2 →
       ∀ f, getImgs f cmp !! ImageName img =
            expectedImages f (imageNamed chart_duplicate (ImageName img)) (Some img)) ∧
    (∀ name b, imageNamed chart_duplicate name = Some b → Vulnerabilities b = None →
       ∀ id, lookupCVE (RemovedCVEs cmp) id name = None ∧
             lookupCVE (UnchangedCVEs cmp) id name = None) ∧
    (∀ name a, imageNamed chart_unscanned name = Some a → Vulnerabilities a = None →
       ∀ id, lookupCVE (AddedCVEs cmp) id name = None).
Proof.
  split; [apply canonical_order_valid|].
  apply (C9_no_validation canonical_order chart_duplicate chart_unscanned).
  apply canonical_order_valid.
Defined.

(** C9 as stated fails: a chart with two images named [app] and a chart
    whose image has a nil vulnerability map are both malformed, and the
    comparison returns a diff for them, computed from the second [app] and
    from an empty vulnerability set. *)
Lemma C9_counterexample :
  malformed chart_duplicate = true ∧ malformed chart_unscanned = true ∧
  CompareHelmCharts canonical_order chart_duplicate chart_unscanned =
  Some (mkHelmComparison chart_duplicate chart_unscanned ∅ ∅
          {["app" := [Some app_v2; Some app_unscanned]]} ∅
          (<["CVE-2" := {["app" := vCVE2]}]> {["CVE-1" := {["app" := vCVE1]}]}) ∅ ∅).
Proof. split; [|split]; vm_compute; reflexivity. Qed.

(** The comparison does fail on a nil image pointer. *)
Example compare_nil_pointer :
  CompareHelmCharts canonical_order chart_nil chart1 = None.
Proof. reflexivity. Qed.

(** * The report renderers: the claims of the specification *)

(** C7. The severity summary of the JSON report and of the Markdown report
    has exactly the rows critical, high, medium, low, in that order; the
    current and previous counts of a row are the numbers of vulnerabilities
    of that severity over all images of the after and of the before chart,
    the difference is current minus previous, and Markdown prints it with
    an explicit sign. *)
Theorem C7_severity_summary iter cmp :
  valid_order iter →
  images_present (Before cmp) = true → images_present (After cmp) = true →
  generateJSONSeverityCounts iter cmp =
    Some (expectedSeverityCounts (Before cmp) (After cmp)) ∧
  markdownSeverityRows iter cmp =
    Some (expectedSeverityRows (Before cmp) (After cmp)) ∧
  (∀ z, (0 ≤ z → fmt_plus_d z = "+" +:+ fmt_d z)%Z ∧
        (z < 0 → fmt_plus_d z = "-" +:+ fmt_d (- z))%Z) ∧
  fmt_plus_d 3 = "+3" ∧ fmt_plus_d (-1) = "-1" ∧ fmt_plus_d 0 = "+0".
Proof.
  intros Hiter Hb Ha.
  rewrite generateJSONSeverityCounts_spec, markdownSeverityRows_spec by done.
  rewrite Hb, Ha. simpl. repeat split; try done; apply fmt_plus_d_sign.
Qed.

Lemma C7_severity_summary_witness :
  valid_order reversed_order ∧
  images_present chart_with_sidecar = true ∧ images_present chart2 = true ∧
  generateJSONSeverityCounts reversed_order
    (mkHelmComparison chart_with_sidecar chart2 ∅ ∅ ∅ ∅ ∅ ∅ ∅) =
    Some [SeverityCount.mk "critical" 1 0 1; SeverityCount.mk "high" 1 1 0;
          SeverityCount.mk "medium" 0 0 0; SeverityCount.mk "low" 0 1 (-1)] ∧
  markdownSeverityRows reversed_order
    (mkHelmComparison chart_with_sidecar chart2 ∅ ∅ ∅ ∅ ∅ ∅ ∅) =
    Some ["| critical | 1 | 0 | +1 |" +:+ NL; "| high | 1 | 1 | +0 |" +:+ NL;
          "| medium | 0 | 0 | +0 |" +:+ NL; "| low | 0 | 1 | -1 |" +:+ NL].
Proof.
  split; [apply reversed_order_valid|]. split; [reflexivity|].
  split; [reflexivity|].
  destruct (C7_severity_summary reversed_order
              (mkHelmComparison chart_with_sidecar chart2 ∅ ∅ ∅ ∅ ∅ ∅ ∅)
              reversed_order_valid eq_refl eq_refl) as (HJ & HM & _).
  split; [exact HJ | exact HM].
Defined.

(** C10, at the failing input.  The image [app] has tag v1 in both charts
    and was pulled from another registry in the after chart.  It is
    Unchanged; the Markdown row shows the after repository, the JSON entry
    repeats the before repository as [AfterRepo]. *)
Theorem C10_unchanged_after_repo_differs :
  ∃ cmp,
    CompareHelmCharts canonical_order chart1 chart_mirrored = Some cmp ∧
    UnChangedImages cmp !! "app" = Some [Some app_v1; Some app_mirrored] ∧
    Repository app_mirrored = "ghcr.io/acme" ∧
    markdownImageRows canonical_order cmp =
      Some ["| app | Unchanged | docker.io/acme | ghcr.io/acme | v1 | v1 |"] ∧
    generateJSONImageChanges canonical_order cmp =
      Some [ImageChange.mk "app" "Unchanged"
              "docker.io/acme" "docker.io/acme" "v1" "v1"].
Proof.
  eexists. split; [vm_compute; reflexivity|].
  repeat split; vm_compute; reflexivity.
Qed.

(** ** Iteration order and the rendered reports *)

Lemma mapM_Permutation {A B} (f : A → option B) (l1 l2 : list A) :
  l1 ≡ₚ l2 → option_Forall2 (≡ₚ) (mapM f l1) (mapM f l2).
Proof.
  induction 1 as [|x l1 l2 Hl IH|x y l|l1 l2 l3 H12 IH12 H23 IH23]; simpl.
  - by constructor.
  - destruct (f x); simpl; [|constructor].
    destruct IH as [k1 k2 Hk|]; simpl; constructor. by constructor.
  - destruct (f x), (f y), (mapM f l); simpl; constructor; apply perm_swap.
  - destruct IH12 as [k1 k2 Hk12|]; inversion IH23; simplify_eq; constructor.
    by etrans.
Qed.

Lemma rows_Permutation {A B} (f1 f2 f3 f4 : A → option B) (a1 a2 r1 r2 c1 c2 u1 u2 : list A) :
  a1 ≡ₚ a2 → r1 ≡ₚ r2 → c1 ≡ₚ c2 → u1 ≡ₚ u2 →
  option_Forall2 (≡ₚ)
    (added ← mapM f1 a1; removed ← mapM f2 r1; changed ← mapM f3 c1;
     unchanged ← mapM f4 u1; Some (added ++ removed ++ changed ++ unchanged)%list)
    (added ← mapM f1 a2; removed ← mapM f2 r2; changed ← mapM f3 c2;
     unchanged ← mapM f4 u2; Some (added ++ removed ++ changed ++ unchanged)%list).
Proof.
  intros Ha Hr Hc Hu.
  destruct (mapM_Permutation f1 _ _ Ha) as [? ? Ha'|]; simpl; [|constructor].
  destruct (mapM_Permutation f2 _ _ Hr) as [? ? Hr'|]; simpl; [|constructor].
  destruct (mapM_Permutation f3 _ _ Hc) as [? ? Hc'|]; simpl; [|constructor].
  destruct (mapM_Permutation f4 _ _ Hu) as [? ? Hu'|]; simpl; constructor.
  by rewrite Ha', Hr', Hc', Hu'.
Qed.

Lemma valid_orders_Permutation {A} iter1 iter2 (m : gmap string A) :
  valid_order iter1 → valid_order iter2 → iter1 A m ≡ₚ iter2 A m.
Proof. intros H1 H2. by rewrite (H1 A m), (H2 A m). Qed.

(** *** The order of the CVE rows *)

Lemma Less_cveLe x y : notAfter x y ↔ cveLe x y.
Proof.
  unfold notAfter, Less, cveLe.
  generalize (severityRank (SortableCVE.Severity x))
             (severityRank (SortableCVE.Severity y)). intros rx ry.
  destruct (lt_eq_lt_dec rx ry) as [[Hlt|Heq]|Hgt].
  - split; [by left|]. intros _ [?|[? _]]; lia.
  - split.
    + intros Hn. right. split; [done|].
      destruct (total String.le (SortableCVE.ID x) (SortableCVE.ID y))
        as [?|Hyx]; [done|].
      destruct (decide (SortableCVE.ID y = SortableCVE.ID x)) as [->|Hne]; [done|].
      exfalso. apply Hn. by right.
    + intros [?|[_ Hxy]]; [lia|]. intros [?|(_ & Hyx & Hne)]; [lia|].
      apply Hne. by apply (anti_symm String.le).
  - split; [intros Hn; exfalso; apply Hn; by left|]. intros [?|[? _]]; lia.
Qed.

#[global] Instance notAfter_total : Total notAfter.
Proof.
  intros x y. rewrite !Less_cveLe. unfold cveLe.
  destruct (total String.le (SortableCVE.ID x) (SortableCVE.ID y));
    destruct (lt_eq_lt_dec (severityRank (SortableCVE.Severity x))
                (severityRank (SortableCVE.Severity y))) as [[?|?]|?];
    intuition lia.
Qed.

#[global] Instance notAfter_trans : Transitive notAfter.
Proof.
  intros x y z. rewrite !Less_cveLe. unfold cveLe.
  intros [?|[? Hxy]] [?|[? Hyz]]; [left; lia..|].
  right. split; [lia|]. by etrans.
Qed.

Lemma notAfter_same_key x y :
  notAfter x y → notAfter y x → SortableCVE.ID x = SortableCVE.ID y.
Proof.
  rewrite !Less_cveLe. unfold cveLe. intros [?|[? Hxy]] [?|[? Hyx]]; try lia.
  by apply (anti_symm String.le).
Qed.

Lemma sortCVEs_Sorted l : Sorted notAfter (sortCVEs l).
Proof. apply (Sorted_merge_sort notAfter). Qed.

Lemma sortCVEs_Permutation l : sortCVEs l ≡ₚ l.
Proof. apply merge_sort_Permutation. Qed.

Section CVERows.
Variables iter1 iter2 : MapOrder.
Hypothesis iter1_valid : valid_order iter1.
Hypothesis iter2_valid : valid_order iter2.

Lemma collect_loop (l : list (string * Vulnerability)) images severity :
  foldl (λ '(images, severity) '(imageName, vuln),
           ((images ++ [imageName])%list, GetSeverity vuln))
        (images, severity) l =
  ((images ++ l.*1)%list, from_option (λ e, GetSeverity e.2) severity (last l)).
Proof.
  revert images severity. induction l as [|[n v] l IH]; intros images severity.
  - simpl. by rewrite app_nil_r.
  - etrans; [apply (IH (images ++ [n])%list (GetSeverity v))|].
    rewrite <- app_assoc. simpl. f_equal.
    destruct l as [|e l]; [done|]. rewrite last_cons_cons.
    destruct (last (e :: l)) eqn:Hlast; [done|]. by apply last_None in Hlast.
Qed.

Lemma collectCVE_eq iter id inner :
  collectCVE iter (id, inner) =
  SortableCVE.mk id (lastSeverity (iter _ inner)) (iter _ inner).*1.
Proof. unfold collectCVE. by rewrite collect_loop. Qed.

Lemma lastSeverity_order (inner : gmap string Vulnerability) :
  (∀ n1 n2 v1 v2, inner !! n1 = Some v1 → inner !! n2 = Some v2 →
                  Severity v1 = Severity v2) →
  lastSeverity (iter1 _ inner) = lastSeverity (iter2 _ inner).
Proof.
  intros Hcons. unfold lastSeverity.
  pose proof (valid_orders_Permutation iter1 iter2 inner iter1_valid iter2_valid)
    as Hperm.
  destruct (last (iter1 _ inner)) as [[n1 v1]|] eqn:H1,
           (last (iter2 _ inner)) as [[n2 v2]|] eqn:H2; simpl.
  - apply last_Some_elem_of in H1, H2.
    apply (iter_elem_of iter1 iter1_valid) in H1.
    apply (iter_elem_of iter2 iter2_valid) in H2.
    unfold GetSeverity. eauto.
  - apply last_None in H2. rewrite H2 in Hperm.
    apply Permutation_nil_r in Hperm. by rewrite Hperm in H1.
  - apply last_None in H1. rewrite H1 in Hperm.
    symmetry in Hperm. apply Permutation_nil_r in Hperm. by rewrite Hperm in H2.
  - done.
Qed.

Lemma normalizeImages_collectCVE (cves : CVEMap) id inner :
  consistent_severity cves → cves !! id = Some inner →
  normalizeImages (collectCVE iter1 (id, inner)) =
  normalizeImages (collectCVE iter2 (id, inner)).
Proof.
  intros Hcons Hid. rewrite !collectCVE_eq. unfold normalizeImages. simpl.
  f_equal.
  - apply lastSeverity_order. intros n1 n2 v1 v2 H1 H2.
    exact (Hcons id inner n1 n2 v1 v2 Hid H1 H2).
  - apply (Sorted_unique String.le).
    + apply (Sorted_merge_sort String.le).
    + apply (Sorted_merge_sort String.le).
    + rewrite !merge_sort_Permutation.
      by rewrite (valid_orders_Permutation iter1 iter2 inner).
Qed.

Lemma notAfter_normalizeImages x y :
  notAfter x y → notAfter (normalizeImages x) (normalizeImages y).
Proof. done. Qed.

(** The sorted rows do not depend on the iteration order, up to the order
    of the image names inside a row. *)
Lemma sorted_rows_order (cves : CVEMap) :
  consistent_severity cves →
  normalizeImages <$> sortCVEs (collectCVEs iter1 cves) =
  normalizeImages <$> sortCVEs (collectCVEs iter2 cves).
Proof.
  intros Hcons.
  assert (∀ iter, valid_order iter →
            normalizeImages <$> sortCVEs (collectCVEs iter cves) ≡ₚ
            (λ e, normalizeImages (collectCVE iter e)) <$> map_to_list cves)
    as Hrows.
  { intros iter Hiter. rewrite sortCVEs_Permutation. unfold collectCVEs.
    rewrite <- list_fmap_compose. by rewrite (Hiter _ cves). }
  assert ((λ e, normalizeImages (collectCVE iter1 e)) <$> map_to_list cves =
          (λ e, normalizeImages (collectCVE iter2 e)) <$> map_to_list cves)
    as Hsame.
  { apply list_fmap_ext. intros i [id inner] Hin%list_elem_of_lookup_2.
    apply elem_of_map_to_list in Hin. by eapply normalizeImages_collectCVE. }
  apply (Sorted_unique_strong notAfter).
  - intros x1 x2 Hx1 Hx2 H12 H21.
    rewrite (Hrows iter1 iter1_valid) in Hx1.
    rewrite (Hrows iter2 iter2_valid), <- Hsame in Hx2.
    apply list_elem_of_fmap in Hx1 as ([id1 inner1] & -> & Hin1).
    apply list_elem_of_fmap in Hx2 as ([id2 inner2] & -> & Hin2).
    pose proof (notAfter_same_key _ _ H12 H21) as Hkey.
    rewrite !collectCVE_eq in Hkey. simpl in Hkey. subst id2.
    apply elem_of_map_to_list in Hin1, Hin2. congruence.
  - apply (Sorted_fmap _ notAfter notAfter);
      [apply notAfter_normalizeImages | apply sortCVEs_Sorted].
  - apply (Sorted_fmap _ notAfter notAfter);
      [apply notAfter_normalizeImages | apply sortCVEs_Sorted].
  - by rewrite (Hrows iter1 iter1_valid), (Hrows iter2 iter2_valid), Hsame.
Qed.

(** One row per CVE ID of the map. *)
Lemma sorted_rows_ids (cves : CVEMap) :
  SortableCVE.ID <$> sortCVEs (collectCVEs iter1 cves) ≡ₚ (map_to_list cves).*1.
Proof.
  rewrite sortCVEs_Permutation. unfold collectCVEs.
  rewrite <- list_fmap_compose, (iter1_valid _ cves).
  erewrite list_fmap_ext; [reflexivity|]. intros i [id inner] _.
  change (SortableCVE.ID (collectCVE iter1 (id, inner)) = id).
  by rewrite collectCVE_eq.
Qed.

(** The images of a row are the image names recorded for its CVE ID. *)
Lemma sorted_rows_images (cves : CVEMap) row :
  row ∈ sortCVEs (collectCVEs iter1 cves) →
  ∃ inner, cves !! SortableCVE.ID row = Some inner ∧
           SortableCVE.Images row ≡ₚ (map_to_list inner).*1.
Proof.
  rewrite sortCVEs_Permutation. unfold collectCVEs.
  intros ([id inner] & -> & Hin)%list_elem_of_fmap.
  apply (iter_elem_of iter1 iter1_valid) in Hin.
  exists inner. rewrite collectCVE_eq. simpl. split; [done|].
  by rewrite (iter1_valid _ inner).
Qed.
End CVERows.

(** C8, as amended.  Whatever the iteration order of the maps: the severity
    summary of both reports is the same; the image rows of the Markdown
    table and the entries of the JSON image-change list are the same rows,
    in the order the maps were iterated (nothing sorts them); the CVE rows
    are sorted at render time by severity rank and then CVE ID, one row per
    CVE ID, and when the images agree on the severity of each CVE the sorted
    rows are the same up to the order of the image names inside a row. *)
Theorem C8_iteration_order iter1 iter2 cmp :
  valid_order iter1 → valid_order iter2 →
  generateJSONSeverityCounts iter1 cmp = generateJSONSeverityCounts iter2 cmp ∧
  markdownSeverityRows iter1 cmp = markdownSeverityRows iter2 cmp ∧
  same_rows (markdownImageRows iter1 cmp) (markdownImageRows iter2 cmp) ∧
  same_rows (generateJSONImageChanges iter1 cmp) (generateJSONImageChanges iter2 cmp) ∧
  ∀ cves : CVEMap,
    Sorted notAfter (sortCVEs (collectCVEs iter1 cves)) ∧
    SortableCVE.ID <$> sortCVEs (collectCVEs iter1 cves) ≡ₚ (map_to_list cves).*1 ∧
    (∀ row, row ∈ sortCVEs (collectCVEs iter1 cves) →
       ∃ inner, cves !! SortableCVE.ID row = Some inner ∧
                SortableCVE.Images row ≡ₚ (map_to_list inner).*1) ∧
    (consistent_severity cves →
       normalizeImages <$> sortCVEs (collectCVEs iter1 cves) =
       normalizeImages <$> sortCVEs (collectCVEs iter2 cves)).
Proof.
  intros H1 H2.
  split; [by rewrite !generateJSONSeverityCounts_spec|].
  split; [by rewrite !markdownSeverityRows_spec|].
  split; [apply rows_Permutation; by apply valid_orders_Permutation|].
  split; [apply rows_Permutation; by apply valid_orders_Permutation|].
  intros cves. split; [apply sortCVEs_Sorted|].
  split; [by apply sorted_rows_ids|].
  split; [by apply sorted_rows_images|].
  by apply sorted_rows_order.
Qed.

Lemma C8_iteration_order_witness :
  valid_order canonical_order ∧ valid_order reversed_order ∧
  generateJSONSeverityCounts canonical_order comparison_two_added =
    generateJSONSeverityCounts reversed_order comparison_two_added ∧
  markdownSeverityRows canonical_order comparison_two_added =
    markdownSeverityRows reversed_order comparison_two_added ∧
  same_rows (markdownImageRows canonical_order comparison_two_added)
            (markdownImageRows reversed_order comparison_two_added) ∧
  same_rows (generateJSONImageChanges canonical_order comparison_two_added)
            (generateJSONImageChanges reversed_order comparison_two_added) ∧
  ∀ cves : CVEMap,
    Sorted notAfter (sortCVEs (collectCVEs canonical_order cves)) ∧
    SortableCVE.ID <$> sortCVEs (collectCVEs canonical_order cves)
      ≡ₚ (map_to_list cves).*1 ∧
    (∀ row, row ∈ sortCVEs (collectCVEs canonical_order cves) →
       ∃ inner, cves !! SortableCVE.ID row = Some inner ∧
                SortableCVE.Images row ≡ₚ (map_to_list inner).*1) ∧
    (consistent_severity cves →
       normalizeImages <$> sortCVEs (collectCVEs canonical_order cves) =
       normalizeImages <$> sortCVEs (collectCVEs reversed_order cves)).
Proof.
  split; [apply canonical_order_valid|]. split; [apply reversed_order_valid|].
  apply (C8_iteration_order canonical_order reversed_order comparison_two_added);
    [apply canonical_order_valid | apply reversed_order_valid].
Defined.

(** C8 as stated fails: the same comparison, rendered with two iteration
    orders of its maps, gives two different Markdown reports and two
    different JSON image-change lists; the rows of the two added images
    change places. *)
Lemma C8_counterexample :
  valid_order canonical_order ∧ valid_order reversed_order ∧
  CompareHelmCharts canonical_order chart_empty chart_with_sidecar
    = Some comparison_two_added ∧
  CompareHelmCharts reversed_order chart_empty chart_with_sidecar
    = Some comparison_two_added ∧
  markdownImageRows canonical_order comparison_two_added =
    Some ["| sidecar | Added | - | docker.io/acme | - | v1 |";
          "| app | Added | - | docker.io/acme | - | v1 |"] ∧
  markdownImageRows reversed_order comparison_two_added =
    Some ["| app | Added | - | docker.io/acme | - | v1 |";
          "| sidecar | Added | - | docker.io/acme | - | v1 |"] ∧
  generateMarkdownReport canonical_order comparison_two_added ≠
    generateMarkdownReport reversed_order comparison_two_added ∧
  generateJSONImageChanges canonical_order comparison_two_added ≠
    generateJSONImageChanges reversed_order comparison_two_added.
Proof.
  split; [apply canonical_order_valid|]. split; [apply reversed_order_valid|].
  split; [vm_compute; reflexivity|]. split; [vm_compute; reflexivity|].
  split; [vm_compute; reflexivity|]. split; [vm_compute; reflexivity|].
  split; intros H.
  - apply (bool_decide_eq_true_2 _ (Decision0 := decide_rel (=) _ _)) in H.
    vm_compute in H. discriminate H.
  - apply (bool_decide_eq_true_2 _ (Decision0 := decide_rel (=) _ _)) in H.
    vm_compute in H. discriminate H.
Qed.

(** * References to images and charts *)

(** ** Splitting and joining *)


Lemma string_app_assoc (s1 s2 s3 : string) : (s1 +:+ s2) +:+ s3 = s1 +:+ (s2 +:+ s3).
Proof.
  induction s1 as [|c s1 IH]; [done|]. unfold String.app in *. simpl. by rewrite IH.
Qed.

Lemma string_app_cons c (s1 s2 : string) : String c s1 +:+ s2 = String c (s1 +:+ s2).
Proof. done. Qed.

Lemma Contains_app s1 s2 c : Contains (s1 +:+ s2) c = Contains s1 c || Contains s2 c.
Proof.
  induction s1 as [|a s1 IH]; [done|]. rewrite string_app_cons. simpl.
  by rewrite IH, orb_assoc.
Qed.

Lemma Split_cons s sep : ∃ part parts, Split s sep = part :: parts.
Proof.
  induction s as [|c s (part & parts & IH)]; simpl; [by eexists _, _|].
  case_decide; [by eexists _, _|]. rewrite IH. by eexists _, _.
Qed.

Lemma Split_length s sep : length (Split s sep) > 0.
Proof. destruct (Split_cons s sep) as (? & ? & ->). simpl. lia. Qed.

Lemma Join_singleton x sep : Join [x] sep = x.
Proof. done. Qed.

Lemma Join_cons_cons x y l sep :
  Join (x :: y :: l) sep = x +:+ sep +:+ Join (y :: l) sep.
Proof. done. Qed.

Lemma Join_snoc l x sep :
  l ≠ [] → Join (l ++ [x])%list sep = Join l sep +:+ sep +:+ x.
Proof.
  induction l as [|y l IH]; [done|]. intros _.
  destruct l as [|z l]; [done|].
  change ((y :: z :: l) ++ [x])%list with (y :: z :: (l ++ [x]))%list.
  rewrite !Join_cons_cons.
  change (z :: (l ++ [x]))%list with ((z :: l) ++ [x])%list.
  rewrite IH by done. by rewrite !string_app_assoc.
Qed.

(** Joining what was split gives the string back. *)
Lemma Join_Split s sep : Join (Split s sep) (String sep "") = s.
Proof.
  induction s as [|c s IH]; [done|]. simpl.
  destruct (Split_cons s sep) as (part & parts & Hsplit). rewrite Hsplit in *.
  case_decide as Hc.
  - subst c. rewrite Join_cons_cons, IH. done.
  - destruct parts as [|part' parts].
    + rewrite Join_singleton in *. by rewrite IH.
    + rewrite Join_cons_cons in *. rewrite string_app_cons. by rewrite IH.
Qed.

(** No part holds the separator. *)
Lemma Split_parts_free s sep :
  Forall (λ part, Contains part sep = false) (Split s sep).
Proof.
  induction s as [|c s IH]; simpl; [by repeat constructor|].
  destruct (Split_cons s sep) as (part & parts & Hsplit). rewrite Hsplit in *.
  apply Forall_cons in IH as [Hpart Hparts].
  case_decide as Hc; constructor; try done.
  - by constructor.
  - simpl. by rewrite bool_decide_eq_false_2, Hpart.
Qed.

(** There is more than one part exactly when the separator occurs. *)
Lemma Split_length_Contains s sep :
  1 < length (Split s sep) ↔ Contains s sep = true.
Proof.
  induction s as [|c s IH]; simpl; [split; [lia|done]|].
  destruct (Split_cons s sep) as (part & parts & Hsplit). rewrite Hsplit in *.
  case_decide as Hc.
  - subst c. rewrite bool_decide_eq_true_2 by done. simpl. split; [done|lia].
  - rewrite bool_decide_eq_false_2 by done. simpl in *. done.
Qed.

Lemma Split_free s sep : Contains s sep = false → Split s sep = [s].
Proof.
  induction s as [|c s IH]; [done|]. simpl.
  intros [Hc Hs]%orb_false_elim. apply bool_decide_eq_false in Hc.
  rewrite decide_False by done. by rewrite IH.
Qed.

Lemma Split_app_free part rest sep :
  Contains part sep = false →
  Split (part +:+ String sep rest) sep = part :: Split rest sep.
Proof.
  induction part as [|c part IH].
  - intros _. change ("" +:+ String sep rest) with (String sep rest). simpl.
    by rewrite decide_True.
  - simpl. intros [Hc Hs]%orb_false_elim. apply bool_decide_eq_false in Hc.
    rewrite decide_False by done. by rewrite IH.
Qed.

(** Splitting what was joined from separator-free parts gives the parts
    back. *)
Lemma Split_Join parts sep :
  parts ≠ [] → Forall (λ part, Contains part sep = false) parts →
  Split (Join parts (String sep "")) sep = parts.
Proof.
  induction parts as [|part parts IH]; [done|]. intros _ [Hpart Hparts]%Forall_cons.
  destruct parts as [|part' parts].
  - rewrite Join_singleton. by apply Split_free.
  - rewrite Join_cons_cons.
    change (String sep "" +:+ Join (part' :: parts) (String sep ""))
      with (String sep (Join (part' :: parts) (String sep ""))).
    rewrite Split_app_free by done. by rewrite IH.
Qed.

Lemma initParts_lastPart parts :
  parts ≠ [] → parts = (initParts parts ++ [lastPart parts])%list.
Proof.
  intros Hne. unfold initParts, lastPart.
  destruct (last parts) as [x|] eqn:Hlast; [|by apply last_None in Hlast].
  apply last_Some in Hlast as [l' ->]. simpl.
  rewrite length_app. simpl. replace (length l' + 1 - 1) with (length l') by lia.
  by rewrite take_app_length.
Qed.

Lemma initParts_nonempty (parts : list string) :
  1 < length parts → initParts parts ≠ [].
Proof.
  unfold initParts. destruct parts as [|x [|y parts]]; simpl; try lia. done.
Qed.

(** A string with the separator is what precedes the last separator, the
    separator, and a last part free of it. *)
Lemma Split_last s sep :
  1 < length (Split s sep) →
  s = Join (initParts (Split s sep)) (String sep "") +:+ String sep "" +:+
      lastPart (Split s sep) ∧
  Contains (lastPart (Split s sep)) sep = false ∧
  Forall (λ part, Contains part sep = false) (initParts (Split s sep)).
Proof.
  intros Hlen.
  assert (Split s sep ≠ []) as Hne by (intros H; rewrite H in Hlen; simpl in Hlen; lia).
  pose proof (Split_parts_free s sep) as Hfree.
  pose proof (initParts_lastPart _ Hne) as Hparts.
  rewrite Hparts in Hfree. apply Forall_app in Hfree as [Hinit Hlast].
  rewrite Forall_singleton in Hlast.
  split; [|done].
  rewrite <- Join_snoc by by apply initParts_nonempty.
  by rewrite <- Hparts, Join_Split.
Qed.

Lemma Split_app_last s t sep :
  Contains t sep = false →
  Split (s +:+ String sep t) sep = (Split s sep ++ [t])%list.
Proof.
  intros Ht. induction s as [|c s IH].
  - change ("" +:+ String sep t) with (String sep t). simpl.
    rewrite decide_True by done. by rewrite Split_free.
  - rewrite string_app_cons. simpl. rewrite IH.
    destruct (Split_cons s sep) as (part & parts & ->). by case_decide.
Qed.

Lemma lastPart_snoc l x : lastPart (l ++ [x])%list = x.
Proof. unfold lastPart. by rewrite last_snoc. Qed.

Lemma initParts_snoc l x : initParts (l ++ [x])%list = l.
Proof.
  unfold initParts. rewrite length_app. simpl.
  replace (length l + 1 - 1) with (length l) by lia. apply take_app_length.
Qed.

(** Exactly two parts: one separator, between two texts free of it. *)
Lemma Split_two s sep a b :
  Split s sep = [a; b] ↔
  s = a +:+ String sep b ∧ Contains a sep = false ∧ Contains b sep = false.
Proof.
  split.
  - intros Hsplit. pose proof (Join_Split s sep) as Hjoin.
    pose proof (Split_parts_free s sep) as Hfree. rewrite Hsplit in Hjoin, Hfree.
    apply Forall_cons in Hfree as [Ha Hb]. rewrite Forall_singleton in Hb.
    by rewrite <- Hjoin.
  - intros (-> & Ha & Hb). by rewrite Split_app_last, Split_free.
Qed.

(** ** [parseImageString] *)

Lemma parse_repository head :
  if decide (1 < length (Split head "/")) then
    Contains head "/" = true ∧
    head = Join (initParts (Split head "/")) "/" +:+ "/" +:+ lastPart (Split head "/") ∧
    Contains (lastPart (Split head "/")) "/" = false
  else Contains head "/" = false.
Proof.
  case_decide as Hlen.
  - split; [by apply Split_length_Contains|].
    destruct (Split_last head "/" Hlen) as (Hhead & Hlast & _). done.
  - destruct (Contains head "/") eqn:Hc; [|done].
    by apply Split_length_Contains in Hc.
Qed.

Lemma parseImageString_split s :
  ∃ head,
    (if Contains s ":" then s = head +:+ ":" +:+ Tag (parseImageString s)
     else s = head ∧ Tag (parseImageString s) = "latest") ∧
    (if Contains head "/"
     then head = Repository (parseImageString s) +:+ "/" +:+
                 ImageName (parseImageString s)
     else head = ImageName (parseImageString s) ∧
          Repository (parseImageString s) = "") ∧
    Contains (ImageName (parseImageString s)) "/" = false ∧
    Contains (Tag (parseImageString s)) ":" = false ∧
    Vulnerabilities (parseImageString s) = None.
Proof.
  unfold parseImageString.
  destruct (decide (1 < length (Split s ":"))) as [Hlen|Hlen].
  - destruct (Split_last s ":" Hlen) as (Hs & Htag & _).
    apply Split_length_Contains in Hlen as Hcolon. rewrite Hcolon.
    exists (Join (initParts (Split s ":")) ":").
    pose proof (parse_repository (Join (initParts (Split s ":")) ":")) as Hrepo.
    destruct (decide (1 < length (Split (Join (initParts (Split s ":")) ":") "/")));
      simpl.
    + destruct Hrepo as (-> & Hhead & Hname). done.
    + rewrite Hrepo. done.
  - assert (Contains s ":" = false) as Hcolon.
    { destruct (Contains s ":") eqn:Hc; [|done].
      by apply Split_length_Contains in Hc. }
    rewrite Hcolon. exists s.
    pose proof (parse_repository s) as Hrepo.
    destruct (decide (1 < length (Split s "/"))); simpl.
    + destruct Hrepo as (-> & Hhead & Hname). done.
    + rewrite Hrepo. done.
Qed.

(** X1. What [parseImageString] returns, read back: the tag is the text
    after the last colon, [latest] without a colon; the image name is the
    text after the last slash of what precedes the tag and the repository
    what precedes that slash, empty without a slash.  The image name holds
    no slash, the tag no colon, and there is no vulnerability map yet. *)
Theorem parseImageString_decompose s :
  ∃ head,
    (if Contains s ":" then s = head +:+ ":" +:+ Tag (parseImageString s)
     else s = head ∧ Tag (parseImageString s) = "latest") ∧
    (if Contains head "/"
     then head = Repository (parseImageString s) +:+ "/" +:+
                 ImageName (parseImageString s)
     else head = ImageName (parseImageString s) ∧
          Repository (parseImageString s) = "") ∧
    Contains (ImageName (parseImageString s)) "/" = false ∧
    Contains (Tag (parseImageString s)) ":" = false ∧
    Vulnerabilities (parseImageString s) = None.
Proof. apply parseImageString_split. Qed.

Lemma parseImageString_joined repo name tag :
  Contains name "/" = false → Contains tag ":" = false →
  parseImageString (repo +:+ "/" +:+ name +:+ ":" +:+ tag)
    = mkContainerImage repo tag name None ∧
  (Contains name ":" = false → Contains repo ":" = false →
   parseImageString (repo +:+ "/" +:+ name)
     = mkContainerImage repo "latest" name None) ∧
  parseImageString (name +:+ ":" +:+ tag) = mkContainerImage "" tag name None ∧
  (Contains name ":" = false →
   parseImageString name = mkContainerImage "" "latest" name None).
Proof.
  intros Hname Htag.
  assert (∀ head, Split (head +:+ ":" +:+ tag) ":" = (Split head ":" ++ [tag])%list)
    as Hsplit by (intros head; by apply Split_app_last).
  assert (∀ head, 1 < length (Split head ":" ++ [tag])%list) as Hlen.
  { intros head. rewrite length_app. pose proof (Split_length head ":"). simpl. lia. }
  assert (Split (repo +:+ "/" +:+ name) "/" = (Split repo "/" ++ [name])%list)
    as Hrepo by by apply Split_app_last.
  assert (1 < length (Split repo "/" ++ [name])%list) as Hrlen.
  { rewrite length_app. pose proof (Split_length repo "/"). simpl. lia. }
  split; [|split; [|split]].
  - assert (repo +:+ "/" +:+ name +:+ ":" +:+ tag =
            (repo +:+ "/" +:+ name) +:+ ":" +:+ tag) as ->
      by (by rewrite !string_app_assoc).
    unfold parseImageString.
    rewrite Hsplit, decide_True by apply Hlen.
    rewrite lastPart_snoc, initParts_snoc.
    rewrite (Join_Split _ ":"), Hrepo, decide_True by done.
    by rewrite lastPart_snoc, initParts_snoc, (Join_Split repo "/").
  - intros Hn Hr. unfold parseImageString.
    rewrite (Split_free (repo +:+ "/" +:+ name) ":")
      by (by rewrite !Contains_app, Hn, Hr).
    rewrite decide_False by (simpl; lia).
    rewrite Hrepo, decide_True by done.
    by rewrite lastPart_snoc, initParts_snoc, (Join_Split repo "/").
  - unfold parseImageString. rewrite Hsplit, decide_True by apply Hlen.
    rewrite lastPart_snoc, initParts_snoc, (Join_Split _ ":").
    rewrite (Split_free name "/") by done. by rewrite decide_False by (simpl; lia).
  - intros Hn. unfold parseImageString.
    rewrite (Split_free name ":") by done. rewrite decide_False by (simpl; lia).
    rewrite (Split_free name "/") by done. by rewrite decide_False by (simpl; lia).
Qed.

(** X2. Parsing a reference put together from its parts gives the parts
    back: [repo/name:tag] for a name without slash and a tag without colon,
    whatever the repository holds (a registry port, further slashes); a
    reference without tag gets the tag [latest], one without slash the
    empty repository. *)
Theorem parseImageString_compose repo name tag :
  Contains name "/" = false → Contains tag ":" = false →
  parseImageString (repo +:+ "/" +:+ name +:+ ":" +:+ tag)
    = mkContainerImage repo tag name None ∧
  (Contains name ":" = false → Contains repo ":" = false →
   parseImageString (repo +:+ "/" +:+ name)
     = mkContainerImage repo "latest" name None) ∧
  parseImageString (name +:+ ":" +:+ tag) = mkContainerImage "" tag name None ∧
  (Contains name ":" = false →
   parseImageString name = mkContainerImage "" "latest" name None).
Proof. apply parseImageString_joined. Qed.

Lemma parseImageString_compose_witness :
  Contains "app" "/" = false ∧ Contains "v1" ":" = false ∧
  parseImageString ("localhost:5000/acme" +:+ "/" +:+ "app" +:+ ":" +:+ "v1")
    = mkContainerImage "localhost:5000/acme" "v1" "app" None.
Proof.
  split; [reflexivity|]. split; [reflexivity|].
  apply (parseImageString_compose "localhost:5000/acme" "app" "v1");
    reflexivity.
Defined.



(** ** [parseChartReference] *)

Lemma parseChartReference_accepts chartRef :
  (∀ repo chart version,
     parseChartReference chartRef = inl (repo, chart, version) ↔
     chartRef = repo +:+ "/" +:+ chart +:+ "@" +:+ version ∧
     Contains repo "/" = false ∧ Contains chart "/" = false ∧
     Contains version "/" = false ∧
     Contains chart "@" = false ∧ Contains version "@" = false) ∧
  ((∃ parts, parseChartReference chartRef = inl parts) ∨
   parseChartReference chartRef = inr ("invalid chart reference: " +:+ chartRef)).
Proof.
  split.
  - intros repo chart version. unfold parseChartReference. split.
    + destruct (decide (length (Split chartRef "/") ≠ 2)) as [|Hlen]; [done|].
      apply dec_stable in Hlen.
      destruct (Split chartRef "/") as [|r [|rest [|? ?]]] eqn:Hsplit;
        simpl in Hlen; try lia. simpl.
      destruct (decide (length (Split rest "@") ≠ 2)) as [|Hlen2]; [done|].
      apply dec_stable in Hlen2.
      destruct (Split rest "@") as [|c [|v [|? ?]]] eqn:Hsplit2;
        simpl in Hlen2; try lia. simpl.
      intros [= <- <- <-].
      apply Split_two in Hsplit as (-> & Hr & Hrest).
      apply Split_two in Hsplit2 as (-> & Hc & Hv).
      rewrite Contains_app in Hrest. simpl in Hrest.
      apply orb_false_elim in Hrest as [Hc' Hv']. done.
    + intros (-> & Hr & Hc & Hv & Hc' & Hv').
      assert (Split (repo +:+ "/" +:+ chart +:+ "@" +:+ version) "/"
              = [repo; chart +:+ "@" +:+ version]) as ->.
      { apply Split_two. split; [done|]. split; [done|].
        rewrite !Contains_app. simpl. by rewrite Hc, Hv. }
      simpl.
      assert (Split (chart +:+ "@" +:+ version) "@" = [chart; version]) as ->
        by by apply Split_two.
      done.
  - unfold parseChartReference. case_decide; [by right|].
    case_decide; [by right|]. left. by eexists.
Qed.

(** X4. [parseChartReference] accepts exactly the references
    [repo/chart@version] with one slash in all and one [@] after it, and
    returns their three parts; every other reference is refused with the
    message [invalid chart reference: ...]. *)
Theorem parseChartReference_spec chartRef :
  (∀ repo chart version,
     parseChartReference chartRef = inl (repo, chart, version) ↔
     chartRef = repo +:+ "/" +:+ chart +:+ "@" +:+ version ∧
     Contains repo "/" = false ∧ Contains chart "/" = false ∧
     Contains version "/" = false ∧
     Contains chart "@" = false ∧ Contains version "@" = false) ∧
  ((∃ parts, parseChartReference chartRef = inl parts) ∨
   parseChartReference chartRef = inr ("invalid chart reference: " +:+ chartRef)).
Proof. apply parseChartReference_accepts. Qed.

(** X5. A reference [parseChartReference] accepts is taken for a Helm chart
    by the command line ([isHelmChart]); it passes the command line's own
    test on the [@] exactly when its repository part holds no [@]. *)
Theorem parseChartReference_isHelmChart chartRef repo chart version :
  parseChartReference chartRef = inl (repo, chart, version) →
  isHelmChart chartRef = true ∧
  (hasOneVersion chartRef = true ↔ Contains repo "@" = false).
Proof.
  intros Hparse.
  apply (proj1 (parseChartReference_accepts chartRef)) in Hparse
    as (-> & Hr & Hc & Hv & Hc' & Hv').
  split.
  - unfold isHelmChart. rewrite !Contains_app. simpl.
    by rewrite !orb_true_r.
  - unfold hasOneVersion. rewrite bool_decide_eq_true.
    assert (repo +:+ "/" +:+ chart +:+ "@" +:+ version =
            (repo +:+ "/" +:+ chart) +:+ "@" +:+ version) as ->
      by (by rewrite !string_app_assoc).
    rewrite (Split_app_last (repo +:+ "/" +:+ chart) version "@" Hv'
             : Split ((repo +:+ "/" +:+ chart) +:+ "@" +:+ version) "@" = _).
    rewrite length_app. simpl.
    split.
    + intros Hlen.
      destruct (Contains repo "@") eqn:Hat; [|done].
      assert (Contains (repo +:+ "/" +:+ chart) "@" = true) as Hcont
        by (by rewrite Contains_app, Hat).
      apply Split_length_Contains in Hcont. lia.
    + intros Hat. rewrite (Split_free (repo +:+ "/" +:+ chart) "@"); [done|].
      rewrite !Contains_app. simpl. by rewrite Hat, Hc'.
Qed.

Lemma parseChartReference_isHelmChart_witness :
  parseChartReference "acme/demo@1.0.0" = inl ("acme", "demo", "1.0.0") ∧
  isHelmChart "acme/demo@1.0.0" = true ∧
  (hasOneVersion "acme/demo@1.0.0" = true ↔ Contains "acme" "@" = false).
Proof.
  split; [reflexivity|].
  apply (parseChartReference_isHelmChart "acme/demo@1.0.0" "acme" "demo" "1.0.0").
  reflexivity.
Defined.

(** * Scanning a chart *)

Lemma Split_length_count s sep : length (Split s sep) = S (countChar s sep).
Proof.
  induction s as [|c s IH]; [done|]. simpl.
  destruct (Split_cons s sep) as (part & parts & Hsplit). rewrite Hsplit in *.
  case_decide; simpl in *; lia.
Qed.

(** X6. The extraction returns one image per line of the pipeline's output
    and never an empty list: as many images as line feeds plus one, equal
    lines included.  For an empty output (a chart without images) that is
    one image with empty name and repository and tag [latest], which [Scan]
    hands to the scanner as [/:latest]. *)
Theorem parseImageLines_never_empty trimmed :
  length (parseImageLines trimmed) = S (countChar trimmed "010") ∧
  parseImageLines trimmed ≠ [] ∧
  (trimmed = "" →
   parseImageLines trimmed = [mkContainerImage "" "latest" "" None] ∧
   scanImageName <$> parseImageLines trimmed = ["/:latest"]).
Proof.
  unfold parseImageLines. split; [|split].
  - by rewrite length_fmap, Split_length_count.
  - destruct (Split_cons trimmed "010") as (part & parts & ->). done.
  - by intros ->.
Qed.

(** ** The vulnerabilities of a scan result *)

Lemma collectVulnerabilities_from (vulnList : list Vulnerability)
    (tmpVulns : gmap string Vulnerability) id :
  foldl (λ tmpVulns vuln,
           match tmpVulns !! ID vuln with
           | Some _ => tmpVulns
           | None => <[ID vuln := vuln]> tmpVulns
           end) tmpVulns vulnList !! id =
  match tmpVulns !! id with
  | Some vuln => Some vuln
  | None => snd <$> list_find (λ vuln, ID vuln = id) vulnList
  end.
Proof.
  revert tmpVulns. induction vulnList as [|vuln vulnList IH]; intros tmpVulns.
  - simpl. by destruct (tmpVulns !! id).
  - simpl foldl. rewrite IH. simpl list_find.
    destruct (decide (ID vuln = id)) as [<-|Hne].
    + destruct (tmpVulns !! ID vuln) as [v|] eqn:Hv; [by rewrite Hv|].
      by rewrite lookup_insert_eq.
    + destruct (tmpVulns !! ID vuln) as [v|] eqn:Hv.
      * destruct (tmpVulns !! id); [done|].
        by destruct (list_find (λ vuln, ID vuln = id) vulnList) as [[? ?]|].
      * rewrite lookup_insert_ne by done.
        destruct (tmpVulns !! id); [done|].
        by destruct (list_find (λ vuln, ID vuln = id) vulnList) as [[? ?]|].
Qed.

(** X7. The vulnerability map [Scan] builds from a scan result holds, under
    each ID, the first vulnerability of the list with that ID: every entry
    is keyed by its own ID, every vulnerability of the list has its ID in
    the map, and a later vulnerability with an ID already seen is dropped. *)
Theorem collectVulnerabilities_first vulnList :
  (∀ id, collectVulnerabilities vulnList !! id =
         snd <$> list_find (λ vuln, ID vuln = id) vulnList) ∧
  (∀ id vuln, collectVulnerabilities vulnList !! id = Some vuln →
              ID vuln = id ∧ vuln ∈ vulnList) ∧
  (∀ vuln, vuln ∈ vulnList →
           is_Some (collectVulnerabilities vulnList !! ID vuln)) ∧
  (∀ first later rest,
     vulnList = first :: rest → later ∈ rest → ID later = ID first →
     collectVulnerabilities vulnList !! ID later = Some first).
Proof.
  assert (∀ id, collectVulnerabilities vulnList !! id =
                snd <$> list_find (λ vuln, ID vuln = id) vulnList) as Hfind.
  { intros id. unfold collectVulnerabilities.
    by rewrite collectVulnerabilities_from, lookup_empty. }
  split; [done|]. split; [|split].
  - intros id vuln. rewrite Hfind.
    destruct (list_find _ vulnList) as [[i v]|] eqn:Hf; [|done].
    intros [= <-]. apply list_find_Some in Hf as (Hi & Hid & _).
    split; [done|]. by eapply list_elem_of_lookup_2.
  - intros vuln Hin. rewrite Hfind.
    destruct (list_find (λ v, ID v = ID vuln) vulnList) as [[i v]|] eqn:Hf;
      [by eexists|].
    apply list_find_None in Hf. rewrite Forall_forall in Hf. by destruct (Hf vuln).
  - intros first later rest -> Hin Hid. rewrite Hfind. simpl.
    by rewrite decide_True.
Qed.

Example parseImageLines_two :
  parseImageLines ("docker.io/library/nginx:1.25" +:+ NL +:+ "redis") =
  [mkContainerImage "docker.io/library" "1.25" "nginx" None;
   mkContainerImage "" "latest" "redis" None].
Proof. reflexivity. Qed.

(** ** The scan loop *)

Section ScanLoop.
Variable ScanImage : string → ScanResult + string.

(** The messages the loop collects, in the order of the images. *)
Local Abbreviation scanErrorsOf :=
  (omap (λ img, match ScanImage (scanImageName img) with
                | inr err => Some ("error scanning image " +:+ ImageName img +:+
                                   ": " +:+ err)
                | inl _ => None
                end)).







End ScanLoop.


Example scanImages_sample :
  scanImages sampleScanner "acme" "demo" "1.0.0"
    (parseImageLines ("docker.io/acme/app:v1" +:+ NL +:+ "docker.io/acme/app:v2")) =
  (mkHelmChart "demo" "1.0.0" "acme"
     [Some (mkContainerImage "docker.io/acme" "v1" "app" (Some {["CVE-1" := vCVE1]}));
      None],
   Some ("errors occurred during image scanning:" +:+ NL +:+
         "error scanning image app: exit status 1")).
Proof. vm_compute. reflexivity. Qed.

(** ** The vulnerabilities of the single-scan report *)

Lemma scanKey_inj name1 id1 name2 id2 :
  Contains name1 ":" = false → Contains name2 ":" = false →
  scanKey name1 id1 = scanKey name2 id2 → name1 = name2 ∧ id1 = id2.
Proof.
  unfold scanKey. revert name2.
  induction name1 as [|c1 name1 IH]; intros [|c2 name2]; simpl.
  - intros _ _ H. split; [done|]. by apply (inj (String.app ":")) in H.
  - intros _ [Hc _]%orb_false_elim H. apply bool_decide_eq_false in Hc.
    rewrite string_app_cons in H. change ("" +:+ ":" +:+ id1) with (String ":" id1) in H.
    by injection H as <- _.
  - intros [Hc _]%orb_false_elim _ H. apply bool_decide_eq_false in Hc.
    rewrite string_app_cons in H. change ("" +:+ ":" +:+ id2) with (String ":" id2) in H.
    by injection H as -> _.
  - intros [_ H1]%orb_false_elim [_ H2]%orb_false_elim H.
    rewrite !string_app_cons in H. injection H as -> H.
    destruct (IH name2 H1 H2 H) as [-> ->]. done.
Qed.

Section SingleScan.
Variable iter : MapOrder.
Hypothesis iter_valid : valid_order iter.

Local Abbreviation insertKeys name :=
  (foldl (λ (collected : gmap string Vulnerability) '(id, v),
            <[scanKey name id := v]> collected)).

Lemma insertKeys_lookup name (l : list (string * Vulnerability)) collected id :
  NoDup l.*1 →
  insertKeys name collected l !! scanKey name id =
  match (list_to_map l : gmap string Vulnerability) !! id with
  | Some v => Some v
  | None => collected !! scanKey name id
  end.
Proof.
  revert collected. induction l as [|[id' v] l IH]; intros collected Hnd; [done|].
  apply NoDup_cons in Hnd as [Hid Hnd]. simpl foldl. rewrite IH by done. simpl.
  destruct (decide (id' = id)) as [->|Hne].
  - rewrite lookup_insert_eq, (not_elem_of_list_to_map_1 _ _ Hid).
    by rewrite lookup_insert_eq.
  - rewrite (lookup_insert_ne _ id' id) by done.
    destruct (list_to_map l !! id); [done|].
    rewrite lookup_insert_ne; [done|].
    unfold scanKey. intros H. by apply (inj (String.app name)), (inj (String.app ":")) in H.
Qed.

Lemma insertKeys_other name (l : list (string * Vulnerability)) collected k :
  (∀ id, k ≠ scanKey name id) → insertKeys name collected l !! k = collected !! k.
Proof.
  intros Hk. revert collected. induction l as [|[id v] l IH]; intros collected; [done|].
  simpl foldl. rewrite IH. by rewrite lookup_insert_ne.
Qed.

Lemma insertKeys_origin name (l : list (string * Vulnerability)) collected k v :
  insertKeys name collected l !! k = Some v →
  collected !! k = Some v ∨ ∃ id, k = scanKey name id ∧ (id, v) ∈ l.
Proof.
  revert collected. induction l as [|[id v'] l IH]; intros collected; [by left|].
  simpl foldl. intros [Hc|(id' & -> & Hin)]%IH.
  - destruct (decide (k = scanKey name id)) as [->|Hne].
    + rewrite lookup_insert_eq in Hc. injection Hc as ->.
      right. exists id. split; [done|]. left.
    + rewrite lookup_insert_ne in Hc by done. by left.
  - right. exists id'. split; [done|]. by right.
Qed.

Lemma collectScanVulns_total imgs collected :
  forallb (λ p, bool_decide (is_Some p)) imgs = true →
  is_Some (collectScanVulns iter imgs collected).
Proof.
  revert collected. induction imgs as [|[img|] imgs IH]; intros collected; simpl.
  - by eexists.
  - apply IH.
  - done.
Qed.

Lemma collectScanVulns_origin imgs collected result k v :
  collectScanVulns iter imgs collected = Some result → result !! k = Some v →
  collected !! k = Some v ∨
  ∃ img id, Some img ∈ imgs ∧ k = scanKey (ImageName img) id ∧
            vulns img !! id = Some v.
Proof.
  revert collected. induction imgs as [|[img|] imgs IH]; intros collected; simpl.
  - intros [= ->] Hk. by left.
  - intros Hrest Hk. destruct (IH _ Hrest Hk) as [Hc|(img' & id & Hin & -> & Hv)].
    + apply insertKeys_origin in Hc as [Hc|(id & -> & Hin)]; [by left|].
      right. exists img, id. split; [left|]. split; [done|].
      by apply (iter_elem_of iter iter_valid).
    + right. exists img', id. split; [by right|done].
  - done.
Qed.

Lemma collectScanVulns_other imgs collected result k :
  collectScanVulns iter imgs collected = Some result →
  (∀ img id, Some img ∈ imgs → k ≠ scanKey (ImageName img) id) →
  result !! k = collected !! k.
Proof.
  revert collected. induction imgs as [|[img|] imgs IH]; intros collected; simpl.
  - by intros [= ->].
  - intros Hrest Hk. rewrite (IH _ Hrest) by (intros; apply Hk; by right).
    apply insertKeys_other. intros id. apply Hk. left.
  - done.
Qed.

Lemma elem_of_imageNames imgs img :
  Some img ∈ imgs → ImageName img ∈ imageNames imgs.
Proof.
  intros Hin. unfold imageNames. apply list_elem_of_fmap. exists img.
  split; [done|]. apply list_elem_of_omap. by exists (Some img).
Qed.

Lemma collectScanVulns_lookup imgs start result :
  collectScanVulns iter imgs start = Some result →
  NoDup (imageNames imgs) →
  Forall (λ name, Contains name ":" = false) (imageNames imgs) →
  ∀ img id, Some img ∈ imgs →
    result !! scanKey (ImageName img) id =
    match vulns img !! id with
    | Some v => Some v
    | None => start !! scanKey (ImageName img) id
    end.
Proof.
  revert start. induction imgs as [|[img0|] imgs IH]; intros start; simpl.
  - intros _ _ _ img id Hin. by apply elem_of_nil in Hin.
  - unfold imageNames. simpl. fold (imageNames imgs).
    intros Hrest [Hfresh Hnd]%NoDup_cons [Hc0 Hcolon]%Forall_cons img id.
    intros [[= ->]|Hin]%elem_of_cons.
    + rewrite (collectScanVulns_other _ _ _ _ Hrest).
      * rewrite insertKeys_lookup by by apply iter_NoDup_keys.
        by rewrite iter_to_map.
      * intros img' id' Hin' Hkey.
        assert (ImageName img' ∈ imageNames imgs) as Hname
          by by apply elem_of_imageNames.
        rewrite Forall_forall in Hcolon.
        apply scanKey_inj in Hkey as [Heq _]; [|done|by apply Hcolon].
        by rewrite Heq in Hfresh.
    + rewrite (IH _ Hrest Hnd Hcolon img id Hin).
      destruct (vulns img !! id); [done|].
      apply insertKeys_other. intros id' Hkey.
      assert (ImageName img ∈ imageNames imgs) as Hname
        by by apply elem_of_imageNames.
      rewrite Forall_forall in Hcolon.
      apply scanKey_inj in Hkey as [Heq _]; [|by apply Hcolon|done].
      by rewrite <- Heq in Hfresh.
  - done.
Qed.

(** X10. The vulnerabilities collected for the single-scan report.  Every
    entry comes from an image of the chart and stands under that image's
    name, a colon and the CVE ID.  When no image name holds a colon and the
    names are pairwise distinct, nothing is overwritten: each vulnerability
    of each image is found under its key. *)
Theorem collectScanVulns_spec chart :
  images_present chart = true →
  ∃ collected,
    collectScanVulns iter (ContainsImages chart) ∅ = Some collected ∧
    (∀ k v, collected !! k = Some v →
       ∃ img id, Some img ∈ ContainsImages chart ∧
                 k = scanKey (ImageName img) id ∧ vulns img !! id = Some v) ∧
    (NoDup (imageNames (ContainsImages chart)) →
     Forall (λ name, Contains name ":" = false) (imageNames (ContainsImages chart)) →
     ∀ img id, Some img ∈ ContainsImages chart →
       collected !! scanKey (ImageName img) id = vulns img !! id).
Proof.
  unfold images_present. intros Hpresent.
  destruct (collectScanVulns_total _ ∅ Hpresent) as [collected Hc].
  exists collected. split; [done|]. split.
  - intros k v Hk. destruct (collectScanVulns_origin _ _ _ _ _ Hc Hk) as [H|H]; [|done].
    by rewrite lookup_empty in H.
  - intros Hnd Hcolon img id Hin.
    rewrite (collectScanVulns_lookup _ _ _ Hc Hnd Hcolon img id Hin).
    rewrite lookup_empty. by destruct (vulns img !! id).
Qed.
End SingleScan.

Lemma collectScanVulns_spec_witness :
  valid_order reversed_order ∧ images_present chart_with_sidecar = true ∧
  ∃ collected,
    collectScanVulns reversed_order (ContainsImages chart_with_sidecar) ∅
      = Some collected ∧
    (∀ k v, collected !! k = Some v →
       ∃ img id, Some img ∈ ContainsImages chart_with_sidecar ∧
                 k = scanKey (ImageName img) id ∧ vulns img !! id = Some v) ∧
    (NoDup (imageNames (ContainsImages chart_with_sidecar)) →
     Forall (λ name, Contains name ":" = false)
            (imageNames (ContainsImages chart_with_sidecar)) →
     ∀ img id, Some img ∈ ContainsImages chart_with_sidecar →
       collected !! scanKey (ImageName img) id = vulns img !! id).
Proof.
  split; [apply reversed_order_valid|]. split; [reflexivity|].
  apply (collectScanVulns_spec reversed_order reversed_order_valid chart_with_sidecar).
  reflexivity.
Defined.

(** Without the condition on the names an entry is overwritten: the images
    [a] and [a:b] collide on the key [a:b:c]. *)
Example collectScanVulns_collision :
  collectScanVulns canonical_order
    [Some (mkContainerImage "" "v1" "a" (Some {["b:c" := vCVE1]}));
     Some (mkContainerImage "" "v1" "a:b" (Some {["c" := vCVE2]}))] ∅
  = Some {["a:b:c" := vCVE2]}.
Proof. vm_compute. reflexivity. Qed.

(** * Rendering a comparison *)

Lemma expectedImages_shape f b a images :
  expectedImages f b a = Some images →
  match f with
  | IAdded => ∃ x, images = [Some x] ∧ a = Some x
  | IRemoved => ∃ x, images = [Some x] ∧ b = Some x
  | IChanged => ∃ x y, images = [Some x; Some y] ∧ b = Some x ∧ a = Some y ∧
                       Tag x ≠ Tag y
  | IUnChanged => ∃ x y, images = [Some x; Some y] ∧ b = Some x ∧ a = Some y ∧
                         Tag x = Tag y
  end.
Proof.
  unfold expectedImages. destruct b as [b|], a as [a|]; [| | |done].
  - case_decide as Htag; destruct f; try done; intros [= <-]; eexists _, _;
      repeat split; try done; by destruct (decide (Tag b = Tag a)).
  - destruct f; try done. intros [= <-]. by eexists.
  - destruct f; try done. intros [= <-]. by eexists.
Qed.

Lemma mapM_total {A B} (f : A → option B) (l : list A) :
  (∀ x, x ∈ l → is_Some (f x)) → ∃ k, mapM f l = Some k ∧ length k = length l.
Proof.
  intros Hf. destruct (mapM f l) as [k|] eqn:Hk.
  - exists k. split; [done|]. symmetry. by eapply length_mapM.
  - apply mapM_None in Hk. apply Exists_exists in Hk as (x & Hin & Hx).
    destruct (Hf x Hin) as [? ?]. congruence.
Qed.


Lemma rows_total {A B} (f1 f2 f3 f4 : A → option B) (a r c u : list A) :
  (∀ x, x ∈ a → is_Some (f1 x)) → (∀ x, x ∈ r → is_Some (f2 x)) →
  (∀ x, x ∈ c → is_Some (f3 x)) → (∀ x, x ∈ u → is_Some (f4 x)) →
  ∃ rows,
    (added ← mapM f1 a; removed ← mapM f2 r; changed ← mapM f3 c;
     unchanged ← mapM f4 u; Some (added ++ removed ++ changed ++ unchanged)%list)
    = Some rows ∧
    length rows = length a + length r + length c + length u.
Proof.
  intros H1 H2 H3 H4.
  destruct (mapM_total f1 a H1) as (added & -> & Hadded).
  destruct (mapM_total f2 r H2) as (removed & -> & Hremoved).
  destruct (mapM_total f3 c H3) as (changed & -> & Hchanged).
  destruct (mapM_total f4 u H4) as (unchanged & -> & Hunchanged).
  simpl. eexists. split; [done|]. rewrite !length_app. lia.
Qed.

Section RenderComparison.
Variables iter0 iter : MapOrder.
Hypothesis iter0_valid : valid_order iter0.
Hypothesis iter_valid : valid_order iter.
Variables before after : HelmChart.
Variable cmp : HelmComparison.
Hypothesis Hcmp : CompareHelmCharts iter0 before after = Some cmp.

Lemma comparison_images f name images :
  (name, images) ∈ iter _ (getImgs f cmp) →
  expectedImages f (imageNamed before name) (imageNamed after name) = Some images.
Proof.
  intros Hin%(iter_elem_of iter iter_valid).
  destruct (CompareHelmCharts_present _ _ _ _ Hcmp) as [Hb Ha].
  destruct (CompareHelmCharts_named iter0 before after iter0_valid Hb Ha)
    as (cmp' & Hcmp' & _ & _ & Himgs & _).
  assert (cmp' = cmp) as -> by congruence. by rewrite <- Himgs.
Qed.

(** X11. Rendering a comparison that [CompareHelmCharts] returned never
    panics: the image lists have the length and the non-nil pointers the
    renderers index, so the Markdown report, its image rows and the JSON
    image-change list and severity counts all exist, with one image row per
    entry of the four image maps. *)
Theorem render_comparison_total :
  (∃ report, generateMarkdownReport iter cmp = Some report) ∧
  (∃ counts, generateJSONSeverityCounts iter cmp = Some counts) ∧
  ∃ rows changes,
    markdownImageRows iter cmp = Some rows ∧
    generateJSONImageChanges iter cmp = Some changes ∧
    length rows = size (AddedImages cmp) + size (RemovedImages cmp) +
                  size (ChangedImages cmp) + size (UnChangedImages cmp) ∧
    length changes = length rows.
Proof.
  destruct (CompareHelmCharts_present _ _ _ _ Hcmp) as [Hb Ha].
  destruct (CompareHelmCharts_named iter0 before after iter0_valid Hb Ha)
    as (cmp' & Hcmp' & HB & HA & _).
  assert (cmp' = cmp) as -> by congruence.
  assert (∀ f, length (iter _ (getImgs f cmp)) = size (getImgs f cmp)) as Hsize.
  { intros f. by rewrite (iter_valid _ (getImgs f cmp)), length_map_to_list. }
  assert (∀ f entry, entry ∈ iter _ (getImgs f cmp) →
            match f with
            | IAdded | IRemoved => ∃ x, entry.2 = [Some x]
            | IChanged | IUnChanged => ∃ x y, entry.2 = [Some x; Some y]
            end) as Hshape.
  { intros f [name images] Hin. apply comparison_images, expectedImages_shape in Hin.
    destruct f; simpl.
    - destruct Hin as (x & -> & _). by eexists.
    - destruct Hin as (x & -> & _). by eexists.
    - destruct Hin as (x & y & -> & _). by eexists _, _.
    - destruct Hin as (x & y & -> & _). by eexists _, _. }
  pose proof (Hsize IAdded) as HsA. pose proof (Hsize IRemoved) as HsR.
  pose proof (Hsize IChanged) as HsC. pose proof (Hsize IUnChanged) as HsU.
  simpl in HsA, HsR, HsC, HsU.
  assert (∃ rows, markdownImageRows iter cmp = Some rows ∧
            length rows = size (AddedImages cmp) + size (RemovedImages cmp) +
                          size (ChangedImages cmp) + size (UnChangedImages cmp))
    as (rows & Hrows & Hlen).
  { unfold markdownImageRows.
    rewrite <- HsA, <- HsR, <- HsC, <- HsU.
    apply rows_total; intros [name images] Hin.
    - destruct (Hshape IAdded _ Hin) as (x & Hx).
      simpl in Hx. subst images. by eexists.
    - destruct (Hshape IRemoved _ Hin) as (x & Hx).
      simpl in Hx. subst images. by eexists.
    - destruct (Hshape IChanged _ Hin) as (x & y & Hx).
      simpl in Hx. subst images. by eexists.
    - destruct (Hshape IUnChanged _ Hin) as (x & y & Hx).
      simpl in Hx. subst images. by eexists. }
  assert (∃ changes, generateJSONImageChanges iter cmp = Some changes ∧
            length changes = size (AddedImages cmp) + size (RemovedImages cmp) +
                          size (ChangedImages cmp) + size (UnChangedImages cmp))
    as (changes & Hchanges & Hclen).
  { unfold generateJSONImageChanges.
    rewrite <- HsA, <- HsR, <- HsC, <- HsU.
    apply rows_total; intros [name images] Hin.
    - destruct (Hshape IAdded _ Hin) as (x & Hx).
      simpl in Hx. subst images. by eexists.
    - destruct (Hshape IRemoved _ Hin) as (x & Hx).
      simpl in Hx. subst images. by eexists.
    - destruct (Hshape IChanged _ Hin) as (x & y & Hx).
      simpl in Hx. subst images. by eexists.
    - destruct (Hshape IUnChanged _ Hin) as (x & y & Hx).
      simpl in Hx. subst images. by eexists. }
  assert (images_present (Before cmp) && images_present (After cmp) = true) as Hp
    by (by rewrite HB, HA, Hb, Ha).
  split; [|split].
  - unfold generateMarkdownReport.
    rewrite markdownSeverityRows_spec, Hp, Hrows by done. simpl. by eexists.
  - rewrite generateJSONSeverityCounts_spec, Hp by done. by eexists.
  - exists rows, changes. repeat split; try done. lia.
Qed.
End RenderComparison.

Lemma render_comparison_total_witness :
  valid_order canonical_order ∧ valid_order reversed_order ∧
  CompareHelmCharts canonical_order chart_empty chart_with_sidecar
    = Some comparison_two_added ∧
  (∃ report, generateMarkdownReport reversed_order comparison_two_added = Some report) ∧
  (∃ counts, generateJSONSeverityCounts reversed_order comparison_two_added
             = Some counts) ∧
  ∃ rows changes,
    markdownImageRows reversed_order comparison_two_added = Some rows ∧
    generateJSONImageChanges reversed_order comparison_two_added = Some changes ∧
    length rows = size (AddedImages comparison_two_added) +
                  size (RemovedImages comparison_two_added) +
                  size (ChangedImages comparison_two_added) +
                  size (UnChangedImages comparison_two_added) ∧
    length changes = length rows.
Proof.
  split; [apply canonical_order_valid|]. split; [apply reversed_order_valid|].
  split; [vm_compute; reflexivity|].
  apply (render_comparison_total canonical_order reversed_order
           canonical_order_valid reversed_order_valid
           chart_empty chart_with_sidecar comparison_two_added).
  vm_compute. reflexivity.
Defined.

Lemma indexImages_dom imgs images m n :
  indexImages imgs images = Some m →
  is_Some (m !! n) ↔ is_Some (images !! n) ∨ n ∈ imageNames imgs.
Proof.
  revert images. induction imgs as [|[img|] imgs IH]; intros images; simpl.
  - intros [= ->]. unfold imageNames. simpl. rewrite elem_of_nil. tauto.
  - intros Hm. rewrite (IH _ Hm). unfold imageNames. simpl.
    rewrite elem_of_cons. destruct (decide (n = ImageName img)) as [->|Hne].
    + rewrite lookup_insert_eq. split; [intros _; right; by left|].
      intros _. left. by eexists.
    + rewrite lookup_insert_ne by done. tauto.
  - done.
Qed.

Lemma imageNamed_dom chart n :
  images_present chart = true →
  is_Some (imageNamed chart n) ↔ n ∈ imageNames (ContainsImages chart).
Proof.
  unfold images_present, imageNamed. intros Hp.
  destruct (indexImages_total _ ∅ Hp) as [m Hm]. rewrite Hm. simpl.
  rewrite (indexImages_dom _ _ _ _ Hm), lookup_empty.
  split; [intros [[? ?]|?]; done | by right].
Qed.

Lemma expectedImages_exclusive f g b a l l' :
  expectedImages f b a = Some l → expectedImages g b a = Some l' → f = g.
Proof.
  unfold expectedImages. destruct b, a; try done; try case_decide;
    destruct f, g; done.
Qed.

Lemma expectedImages_some b a :
  (∃ f l, expectedImages f b a = Some l) ↔ is_Some b ∨ is_Some a.
Proof.
  unfold expectedImages. split.
  - intros (f & l & H). destruct b, a; try done; [left|left|right]; by eexists.
  - destruct b as [b|], a as [a|].
    + intros _. destruct (decide (Tag b ≠ Tag a)).
      * exists IChanged. by eexists.
      * exists IUnChanged. by eexists.
    + intros _. exists IRemoved. by eexists.
    + intros _. exists IAdded. by eexists.
    + intros [[? ?]|[? ?]]; done.
Qed.

Lemma mapM_names {A B} (f : string * A → option B) (N : B → string) l k :
  mapM f l = Some k → (∀ x y, f x = Some y → N y = x.1) → N <$> k = l.*1.
Proof.
  intros Hk%mapM_Some_1 HN. induction Hk as [|x y l k Hxy _ IH]; [done|].
  rewrite !fmap_cons. by rewrite (HN x y Hxy), IH.
Qed.

Lemma rows_inv {A B} (f1 f2 f3 f4 : A → option B) (a r c u : list A) rows :
  (added ← mapM f1 a; removed ← mapM f2 r; changed ← mapM f3 c;
   unchanged ← mapM f4 u; Some (added ++ removed ++ changed ++ unchanged)%list)
  = Some rows →
  ∃ added removed changed unchanged,
    mapM f1 a = Some added ∧ mapM f2 r = Some removed ∧
    mapM f3 c = Some changed ∧ mapM f4 u = Some unchanged ∧
    rows = (added ++ removed ++ changed ++ unchanged)%list.
Proof.
  destruct (mapM f1 a) as [added|]; [|done].
  destruct (mapM f2 r) as [removed|]; [|done].
  destruct (mapM f3 c) as [changed|]; [|done].
  destruct (mapM f4 u) as [unchanged|]; [|done].
  simpl. intros [= <-]. by eexists _, _, _, _.
Qed.


Section RenderedImages.
Variables iter0 iter : MapOrder.
Hypothesis iter0_valid : valid_order iter0.
Hypothesis iter_valid : valid_order iter.
Variables before after : HelmChart.
Variable cmp : HelmComparison.
Hypothesis Hcmp : CompareHelmCharts iter0 before after = Some cmp.

Lemma comparison_lookup f n :
  getImgs f cmp !! n =
  expectedImages f (imageNamed before n) (imageNamed after n).
Proof.
  destruct (CompareHelmCharts_present _ _ _ _ Hcmp) as [Hb Ha].
  destruct (CompareHelmCharts_named iter0 before after iter0_valid Hb Ha)
    as (cmp' & Hcmp' & _ & _ & Himgs & _).
  assert (cmp' = cmp) as -> by congruence. apply Himgs.
Qed.

Lemma comparison_keys f n :
  n ∈ (iter _ (getImgs f cmp)).*1 ↔
  is_Some (expectedImages f (imageNamed before n) (imageNamed after n)).
Proof.
  rewrite <- comparison_lookup. rewrite list_elem_of_fmap. split.
  - intros ([n' images] & -> & Hin). apply (iter_elem_of iter iter_valid) in Hin.
    by eexists.
  - intros [images Hn]. exists (n, images). split; [done|].
    by apply (iter_elem_of iter iter_valid).
Qed.

Lemma comparison_keys_disjoint f g n :
  f ≠ g → n ∈ (iter _ (getImgs f cmp)).*1 → n ∉ (iter _ (getImgs g cmp)).*1.
Proof.
  intros Hfg [l Hf]%comparison_keys [l' Hg]%comparison_keys.
  by apply Hfg, (expectedImages_exclusive f g _ _ _ _ Hf Hg).
Qed.

(** X12. The JSON image-change list names every image name that occurs in
    either chart exactly once, and no other name. *)
Theorem generateJSONImageChanges_names changes :
  generateJSONImageChanges iter cmp = Some changes →
  NoDup (ImageChange.Name <$> changes) ∧
  ∀ n, n ∈ ImageChange.Name <$> changes ↔
       n ∈ imageNames (ContainsImages before) ∨
       n ∈ imageNames (ContainsImages after).
Proof.
  unfold generateJSONImageChanges.
  intros (added & removed & changed & unchanged & Ha & Hr & Hc & Hu & ->)%rows_inv.
  apply (mapM_names _ ImageChange.Name) in Ha, Hr, Hc, Hu;
    try (intros [name images] y; simpl; destruct (deref images 0); simpl;
         try destruct (deref images 1); simpl; by intros [= <-]).
  rewrite !fmap_app, Ha, Hr, Hc, Hu.
  pose proof (comparison_keys_disjoint) as Hdisj.
  split.
  - rewrite !NoDup_app. repeat split;
      try (apply (iter_NoDup_keys iter iter_valid)).
    + intros n Hn. rewrite !elem_of_app. intros [H|[H|H]].
      * by apply (Hdisj IAdded IRemoved n).
      * by apply (Hdisj IAdded IChanged n).
      * by apply (Hdisj IAdded IUnChanged n).
    + intros n Hn. rewrite !elem_of_app. intros [H|H].
      * by apply (Hdisj IRemoved IChanged n).
      * by apply (Hdisj IRemoved IUnChanged n).
    + intros n Hn. by apply (Hdisj IChanged IUnChanged n).
  - intros n. destruct (CompareHelmCharts_present _ _ _ _ Hcmp) as [Hb Hafter].
    rewrite <- !imageNamed_dom by done. rewrite <- expectedImages_some.
    rewrite !elem_of_app.
    rewrite (comparison_keys IAdded), (comparison_keys IRemoved),
      (comparison_keys IChanged), (comparison_keys IUnChanged).
    split.
    + intros [[l H]|[[l H]|[[l H]|[l H]]]]; by eexists _, _.
    + intros ([] & l & H); [left|right; left|right; right; left|right; right; right];
        by eexists.
Qed.

(** X13. Where a recorded vulnerability comes from: an entry
    [AddedCVEs[id][name]] is the entry [id] of the vulnerability map of the
    after chart's image [name], an entry of RemovedCVEs or UnchangedCVEs
    that of the before chart's image [name]; and no CVE ID of the three maps
    stands for an empty set of images. *)
Theorem recorded_vulnerability_origin id name vuln :
  (lookupCVE (AddedCVEs cmp) id name = Some vuln →
   ∃ a, imageNamed after name = Some a ∧ vulns a !! id = Some vuln) ∧
  (lookupCVE (RemovedCVEs cmp) id name = Some vuln →
   ∃ b, imageNamed before name = Some b ∧ vulns b !! id = Some vuln) ∧
  (lookupCVE (UnchangedCVEs cmp) id name = Some vuln →
   ∃ b, imageNamed before name = Some b ∧ vulns b !! id = Some vuln ∧
        is_Some (imageNamed after name)) ∧
  inner_nonempty (AddedCVEs cmp) ∧ inner_nonempty (RemovedCVEs cmp) ∧
  inner_nonempty (UnchangedCVEs cmp).
Proof.
  destruct (CompareHelmCharts_present _ _ _ _ Hcmp) as [Hb Ha].
  destruct (CompareHelmCharts_named iter0 before after iter0_valid Hb Ha)
    as (cmp' & Hcmp' & _ & _ & _ & Hcves & Hne).
  assert (cmp' = cmp) as -> by congruence.
  pose proof (Hcves FAdded id name) as HA. pose proof (Hcves FRemoved id name) as HR.
  pose proof (Hcves FUnchanged id name) as HU. simpl in HA, HR, HU.
  rewrite HA, HR, HU. unfold expectedCVE.
  split; [|split; [|split; [|split; [apply (Hne FAdded)|split;
    [apply (Hne FRemoved)|apply (Hne FUnchanged)]]]]].
  - destruct (imageNamed before name) as [b|], (imageNamed after name) as [a|];
      try done; [|by eexists].
    case_decide; [|done]. destruct (vulns b !! id); [done|]. by eexists.
  - destruct (imageNamed before name) as [b|], (imageNamed after name) as [a|];
      try done; [|by eexists].
    case_decide; [|done]. destruct (vulns a !! id); [done|]. by eexists.
  - destruct (imageNamed before name) as [b|], (imageNamed after name) as [a|];
      try done.
    case_decide; [destruct (vulns a !! id); [|done]|]; intros Hv;
      exists b; repeat split; try done; by eexists.
Qed.

End RenderedImages.

Lemma generateJSONImageChanges_names_witness :
  valid_order canonical_order ∧ valid_order reversed_order ∧
  CompareHelmCharts canonical_order chart_empty chart_with_sidecar
    = Some comparison_two_added ∧
  generateJSONImageChanges reversed_order comparison_two_added =
    Some [ImageChange.mk "app" "Added" "" "docker.io/acme" "" "v1";
          ImageChange.mk "sidecar" "Added" "" "docker.io/acme" "" "v1"] ∧
  NoDup (ImageChange.Name <$>
           [ImageChange.mk "app" "Added" "" "docker.io/acme" "" "v1";
            ImageChange.mk "sidecar" "Added" "" "docker.io/acme" "" "v1"]) ∧
  ∀ n, n ∈ ImageChange.Name <$>
             [ImageChange.mk "app" "Added" "" "docker.io/acme" "" "v1";
              ImageChange.mk "sidecar" "Added" "" "docker.io/acme" "" "v1"] ↔
       n ∈ imageNames (ContainsImages chart_empty) ∨
       n ∈ imageNames (ContainsImages chart_with_sidecar).
Proof.
  split; [apply canonical_order_valid|]. split; [apply reversed_order_valid|].
  split; [vm_compute; reflexivity|]. split; [vm_compute; reflexivity|].
  apply (generateJSONImageChanges_names canonical_order reversed_order
           canonical_order_valid reversed_order_valid
           chart_empty chart_with_sidecar comparison_two_added);
    vm_compute; reflexivity.
Defined.

Lemma recorded_vulnerability_origin_witness :
  valid_order canonical_order ∧
  CompareHelmCharts canonical_order chart_empty chart_with_sidecar
    = Some comparison_two_added ∧
  (lookupCVE (AddedCVEs comparison_two_added) "CVE-9" "sidecar" = Some vCVE9 →
   ∃ a, imageNamed chart_with_sidecar "sidecar" = Some a ∧
        vulns a !! "CVE-9" = Some vCVE9).
Proof.
  split; [apply canonical_order_valid|]. split; [vm_compute; reflexivity|].
  apply (recorded_vulnerability_origin canonical_order canonical_order_valid
           chart_empty chart_with_sidecar comparison_two_added).
  vm_compute. reflexivity.
Defined.


(** * Further properties of the comparison and of the summary *)

(** X15. The result of [CompareHelmCharts] does not depend on the order in
    which the Go runtime iterates the maps. *)
Theorem CompareHelmCharts_order_independent iter1 iter2 before after :
  valid_order iter1 → valid_order iter2 →
  CompareHelmCharts iter1 before after = CompareHelmCharts iter2 before after.
Proof.
  intros H1 H2.
  destruct (images_present before && images_present after) eqn:Hp.
  - apply andb_true_iff in Hp as [Hb Ha].
    destruct (CompareHelmCharts_named iter1 before after H1 Hb Ha)
      as (cmp1 & -> & HB1 & HA1 & Himgs1 & Hcves1 & Hne1).
    destruct (CompareHelmCharts_named iter2 before after H2 Hb Ha)
      as (cmp2 & -> & HB2 & HA2 & Himgs2 & Hcves2 & Hne2).
    f_equal.
    assert (∀ f, getImgs f cmp1 = getImgs f cmp2) as Himgs.
    { intros f. apply map_eq. intros n. by rewrite Himgs1, Himgs2. }
    assert (∀ f, getCVEs f cmp1 = getCVEs f cmp2) as Hcves.
    { intros f. apply CVEMap_eq; [apply Hne1 | apply Hne2 |].
      intros id n. by rewrite Hcves1, Hcves2. }
    pose proof (Himgs IAdded). pose proof (Himgs IRemoved).
    pose proof (Himgs IChanged). pose proof (Himgs IUnChanged).
    pose proof (Hcves FAdded). pose proof (Hcves FRemoved).
    pose proof (Hcves FUnchanged).
    destruct cmp1, cmp2. simpl in *. congruence.
  - destruct (CompareHelmCharts iter1 before after) as [cmp1|] eqn:E1.
    { apply CompareHelmCharts_present in E1 as [Hb Ha]. by rewrite Hb, Ha in Hp. }
    destruct (CompareHelmCharts iter2 before after) as [cmp2|] eqn:E2; [|done].
    apply CompareHelmCharts_present in E2 as [Hb Ha]. by rewrite Hb, Ha in Hp.
Qed.

Lemma CompareHelmCharts_order_independent_witness :
  valid_order canonical_order ∧ valid_order reversed_order ∧
  CompareHelmCharts canonical_order chart_with_sidecar chart2 =
  CompareHelmCharts reversed_order chart_with_sidecar chart2.
Proof.
  split; [apply canonical_order_valid|]. split; [apply reversed_order_valid|].
  apply (CompareHelmCharts_order_independent canonical_order reversed_order);
    [apply canonical_order_valid | apply reversed_order_valid].
Defined.

Lemma imageNamed_no_images chart name :
  ContainsImages chart = [] → imageNamed chart name = None.
Proof. unfold imageNamed. intros ->. simpl. apply lookup_empty. Qed.

(** X16. Comparing against a chart without images: with an empty before
    chart every image of the after chart is Added with all its
    vulnerabilities and nothing is Removed, Changed or Unchanged; with an
    empty after chart every image of the before chart is Removed with all
    its vulnerabilities and nothing is Added, Changed or Unchanged. *)
Theorem CompareHelmCharts_empty_side iter before after :
  valid_order iter →
  images_present before = true → images_present after = true →
  ∃ cmp, CompareHelmCharts iter before after = Some cmp ∧
    (ContainsImages before = [] →
     RemovedImages cmp = ∅ ∧ ChangedImages cmp = ∅ ∧ UnChangedImages cmp = ∅ ∧
     RemovedCVEs cmp = ∅ ∧ UnchangedCVEs cmp = ∅ ∧
     ∀ name, AddedImages cmp !! name = (λ a, [Some a]) <$> imageNamed after name ∧
             ∀ id, lookupCVE (AddedCVEs cmp) id name =
                   imageNamed after name ≫= λ a, vulns a !! id) ∧
    (ContainsImages after = [] →
     AddedImages cmp = ∅ ∧ ChangedImages cmp = ∅ ∧ UnChangedImages cmp = ∅ ∧
     AddedCVEs cmp = ∅ ∧ UnchangedCVEs cmp = ∅ ∧
     ∀ name, RemovedImages cmp !! name = (λ b, [Some b]) <$> imageNamed before name ∧
             ∀ id, lookupCVE (RemovedCVEs cmp) id name =
                   imageNamed before name ≫= λ b, vulns b !! id).
Proof.
  intros Hiter Hb Ha.
  destruct (CompareHelmCharts_named iter before after Hiter Hb Ha)
    as (cmp & Hcmp & _ & _ & Himgs & Hcves & Hne).
  exists cmp. split; [done|]. split.
  - intros Hempty.
    assert (∀ n, imageNamed before n = None) as Hnone
      by (intros; by apply imageNamed_no_images).
    assert (∀ f, f ≠ IAdded → getImgs f cmp = ∅) as Hi.
    { intros f Hf. apply map_empty. intros n. rewrite Himgs, Hnone.
      unfold expectedImages. destruct (imageNamed after n); [|done]. by destruct f. }
    assert (∀ f, f ≠ FAdded → getCVEs f cmp = ∅) as Hc.
    { intros f Hf. apply CVEMap_empty; [apply Hne|]. intros id n.
      rewrite Hcves, Hnone. unfold expectedCVE.
      destruct (imageNamed after n); [|done]. by destruct f. }
    split; [by apply (Hi IRemoved)|]. split; [by apply (Hi IChanged)|].
    split; [by apply (Hi IUnChanged)|]. split; [by apply (Hc FRemoved)|].
    split; [by apply (Hc FUnchanged)|]. intros name. split.
    + change (getImgs IAdded cmp !! name = (λ a, [Some a]) <$> imageNamed after name).
      rewrite Himgs, Hnone. unfold expectedImages.
      by destruct (imageNamed after name).
    + intros id.
      change (lookupCVE (getCVEs FAdded cmp) id name =
              imageNamed after name ≫= λ a, vulns a !! id).
      rewrite Hcves, Hnone. unfold expectedCVE. by destruct (imageNamed after name).
  - intros Hempty.
    assert (∀ n, imageNamed after n = None) as Hnone
      by (intros; by apply imageNamed_no_images).
    assert (∀ f, f ≠ IRemoved → getImgs f cmp = ∅) as Hi.
    { intros f Hf. apply map_empty. intros n. rewrite Himgs, Hnone.
      unfold expectedImages. destruct (imageNamed before n); [|done]. by destruct f. }
    assert (∀ f, f ≠ FRemoved → getCVEs f cmp = ∅) as Hc.
    { intros f Hf. apply CVEMap_empty; [apply Hne|]. intros id n.
      rewrite Hcves, Hnone. unfold expectedCVE.
      destruct (imageNamed before n); [|done]. by destruct f. }
    split; [by apply (Hi IAdded)|]. split; [by apply (Hi IChanged)|].
    split; [by apply (Hi IUnChanged)|]. split; [by apply (Hc FAdded)|].
    split; [by apply (Hc FUnchanged)|]. intros name. split.
    + change (getImgs IRemoved cmp !! name =
              (λ b, [Some b]) <$> imageNamed before name).
      rewrite Himgs, Hnone. unfold expectedImages.
      by destruct (imageNamed before name).
    + intros id.
      change (lookupCVE (getCVEs FRemoved cmp) id name =
              imageNamed before name ≫= λ b, vulns b !! id).
      rewrite Hcves, Hnone. unfold expectedCVE. by destruct (imageNamed before name).
Qed.

Lemma CompareHelmCharts_empty_side_witness :
  valid_order canonical_order ∧
  images_present chart_empty = true ∧ images_present chart_with_sidecar = true ∧
  ContainsImages chart_empty = [] ∧
  ∃ cmp, CompareHelmCharts canonical_order chart_empty chart_with_sidecar = Some cmp ∧
    RemovedImages cmp = ∅ ∧ ChangedImages cmp = ∅ ∧ UnChangedImages cmp = ∅ ∧
    RemovedCVEs cmp = ∅ ∧ UnchangedCVEs cmp = ∅.
Proof.
  split; [apply canonical_order_valid|]. split; [reflexivity|].
  split; [reflexivity|]. split; [reflexivity|].
  destruct (CompareHelmCharts_empty_side canonical_order chart_empty
              chart_with_sidecar canonical_order_valid eq_refl eq_refl)
    as (cmp & Hcmp & Hbefore & _).
  exists cmp. split; [exact Hcmp|].
  destruct (Hbefore eq_refl) as (HR & HC & HU & HRc & HUc & _).
  repeat split; assumption.
Defined.

Lemma size_filter_list (P : string * Vulnerability → Prop) `{!∀ e, Decision (P e)}
    (m : gmap string Vulnerability) :
  size (filter P m) = length (filter P (map_to_list m)).
Proof.
  rewrite <- length_map_to_list, map_filter_alt.
  apply Permutation_length, map_to_list_to_map.
  eapply sublist_NoDup; [apply (NoDup_fst_map_to_list m)|].
  apply fmap_sublist, sublist_filter.
Qed.

Lemma listed_filter (l : list (string * Vulnerability)) :
  length (filter (λ e, Severity e.2 = "critical") l) +
  length (filter (λ e, Severity e.2 = "high") l) +
  length (filter (λ e, Severity e.2 = "medium") l) +
  length (filter (λ e, Severity e.2 = "low") l) =
  length (filter (λ e, Severity e.2 ∈ severities) l).
Proof.
  induction l as [|e l IH]; [done|]. rewrite !filter_cons.
  remember (Severity e.2) as s eqn:Hs. clear Hs.
  destruct (decide (s ∈ severities)) as [Hin|Hout].
  - unfold severities in Hin. rewrite !elem_of_cons in Hin.
    destruct Hin as [->|[->|[->|[->|Hnil]]]]; [..|by apply elem_of_nil in Hnil];
      simpl; lia.
  - rewrite !decide_False by (intros ->; apply Hout; unfold severities; set_solver).
    done.
Qed.

Lemma listed_severityCount chart :
  (severityCount "critical" chart + severityCount "high" chart +
   severityCount "medium" chart + severityCount "low" chart)%Z = listedCount chart.
Proof.
  unfold severityCount, listedCount.
  induction (ContainsImages chart) as [|p imgs IH]; [done|]. simpl.
  rewrite <- IH, !size_filter_list.
  rewrite <- (listed_filter (map_to_list (from_option vulns ∅ p))). lia.
Qed.

Lemma listedCount_le chart : (listedCount chart ≤ totalCount chart)%Z.
Proof.
  unfold listedCount, totalCount.
  induction (ContainsImages chart) as [|p imgs IH]; [done|]. simpl.
  pose proof (map_size_filter (λ e : string * Vulnerability, Severity e.2 ∈ severities)
                (from_option vulns ∅ p)). lia.
Qed.

(** X17. The severity summary counts only vulnerabilities whose severity is
    literally [critical], [high], [medium] or [low]: the current and the
    previous counts of the four rows add up to the number of such
    vulnerabilities of the after and of the before chart, which may be less
    than the number of all vulnerabilities; any other severity string (an
    upper-case one, say) is left out of the summary. *)
Theorem severity_summary_listed_only iter cmp counts :
  valid_order iter →
  generateJSONSeverityCounts iter cmp = Some counts →
  sumZ (SeverityCount.Current <$> counts) = listedCount (After cmp) ∧
  sumZ (SeverityCount.Previous <$> counts) = listedCount (Before cmp) ∧
  (listedCount (After cmp) ≤ totalCount (After cmp))%Z ∧
  (listedCount (Before cmp) ≤ totalCount (Before cmp))%Z.
Proof.
  intros Hiter. rewrite generateJSONSeverityCounts_spec by done.
  destruct (images_present (Before cmp) && images_present (After cmp)); [|done].
  intros [= <-]. unfold expectedSeverityCounts, sumZ. simpl.
  rewrite <- !listed_severityCount.
  pose proof (listedCount_le (After cmp)). pose proof (listedCount_le (Before cmp)).
  rewrite <- !listed_severityCount in *. lia.
Qed.

Lemma severity_summary_listed_only_witness :
  valid_order canonical_order ∧
  generateJSONSeverityCounts canonical_order comparison_uppercase =
    Some [SeverityCount.mk "critical" 0 0 0; SeverityCount.mk "high" 0 0 0;
          SeverityCount.mk "medium" 0 0 0; SeverityCount.mk "low" 0 0 0] ∧
  totalCount chart_uppercase = 1%Z ∧
  sumZ (SeverityCount.Current <$>
          [SeverityCount.mk "critical" 0 0 0; SeverityCount.mk "high" 0 0 0;
           SeverityCount.mk "medium" 0 0 0; SeverityCount.mk "low" 0 0 0])
    = listedCount (After comparison_uppercase).
Proof.
  split; [apply canonical_order_valid|]. split; [vm_compute; reflexivity|].
  split; [vm_compute; reflexivity|].
  apply (severity_summary_listed_only canonical_order comparison_uppercase);
    [apply canonical_order_valid | vm_compute; reflexivity].
Defined.
